(** * snapshotter/utils/generic_worker.py: the commit-and-submit pipeline

    A shallow embedding of [GenericAsyncWorker]: canonical serialisation of a
    snapshot, the two tenacity retry policies, EIP-712 request signing and
    the commit orchestration with its failure accounting.

    Conventions.
    - A Python [str] is a Rocq [string], one [ascii] per code point; code
      points above 255 are outside the model.  Python [bytes] are
      [list byte].  Python [int] is [Z].
    - Python exceptions are values of [exn]; a call either returns or raises
      ([outcome]).  The class hierarchy is that of Python 3.8 and later, where
      [asyncio.CancelledError] derives from [BaseException] and not from
      [Exception].
    - Everything the worker awaits (IPFS, the anchor-chain RPC, the gRPC
      stream, the random backoff draw, the clock) is answered by an [oracle]
      supplied for the call; cryptographic and hashing libraries are the
      functions of a [library] record.  Effects are recorded, in program
      order, in a trace of [event]s. *)

From Stdlib Require Import ZArith List String Ascii Bool Lia QArith
  Permutation DecimalString OrderedTypeEx.
From Stdlib.Strings Require Byte.
Import ListNotations.

#[local] Set Warnings "-register-all".

Local Open Scope string_scope.
Local Open Scope Z_scope.

Definition bytes := list Byte.byte.

(** ** Exceptions *)

Inductive exn : Type :=
| ConnectionResetError
| GRPCError
| TimeoutError
| CancelledError
| HTTPStatusError
| IPFSAsyncClientError
| RetryError
| UnboundLocalError
| ValueError
| IndexError
| OverflowError
| OtherException (name : string)
| KeyboardInterrupt.

(** [isinstance(e, Exception)]: false for the two classes that derive from
    [BaseException] directly. *)
Definition is_Exception (e : exn) : bool :=
  match e with
  | CancelledError | KeyboardInterrupt => false
  | _ => true
  end.

Definition exn_name (e : exn) : string :=
  match e with
  | ConnectionResetError => "ConnectionResetError"
  | GRPCError => "GRPCError"
  | TimeoutError => "TimeoutError"
  | CancelledError => "CancelledError"
  | HTTPStatusError => "HTTPStatusError"
  | IPFSAsyncClientError => "IPFSAsyncClientError"
  | RetryError => "RetryError"
  | UnboundLocalError => "UnboundLocalError"
  | ValueError => "ValueError"
  | IndexError => "IndexError"
  | OverflowError => "OverflowError"
  | OtherException name => name
  | KeyboardInterrupt => "KeyboardInterrupt"
  end.

Definition exn_eqb (a b : exn) : bool :=
  match a, b with
  | OtherException x, OtherException y => String.eqb x y
  | OtherException _, _ | _, OtherException _ => false
  | _, _ => String.eqb (exn_name a) (exn_name b)
  end.

Inductive outcome (A : Type) : Type :=
| Ok (a : A)
| Raise (e : exn).
Arguments Ok {A} a.
Arguments Raise {A} e.

(** ** json.dumps *)

Module Json.

(** The value tree handed to [json.dumps] by [snapshot.dict(by_alias=True)].
    A [JDict] lists its items in insertion order. *)
Inductive json : Type :=
| JNull
| JBool (b : bool)
| JInt (n : Z)
| JStr (s : string)
| JList (elems : list json)
| JDict (items : list (string * json)).

Definition hex_digit (n : N) : ascii :=
  match n with
  | 0%N => "0" | 1%N => "1" | 2%N => "2" | 3%N => "3" | 4%N => "4"
  | 5%N => "5" | 6%N => "6" | 7%N => "7" | 8%N => "8" | 9%N => "9"
  | 10%N => "a" | 11%N => "b" | 12%N => "c" | 13%N => "d" | 14%N => "e"
  | _ => "f"
  end%char.

Definition quote : string := String "034"%char EmptyString.

(** One character under [ensure_ascii=True]: the short escapes of
    [ESCAPE_DCT], a [\u00xx] escape for everything outside [' '..'~'],
    the character itself otherwise. *)
Definition escape_char (c : ascii) : string :=
  let n := N_of_ascii c in
  if (n =? 34)%N then String "\" quote
  else if (n =? 92)%N then "\\"
  else if (n =? 10)%N then "\n"
  else if (n =? 13)%N then "\r"
  else if (n =? 9)%N then "\t"
  else if (n =? 8)%N then "\b"
  else if (n =? 12)%N then "\f"
  else if ((n <? 32) || (126 <? n))%N then
    "\u00" ++ String (hex_digit (n / 16))
                 (String (hex_digit (n mod 16)) EmptyString)
  else String c EmptyString.

Fixpoint escape (s : string) : string :=
  match s with
  | EmptyString => EmptyString
  | String c rest => escape_char c ++ escape rest
  end.

Definition encode_basestring_ascii (s : string) : string :=
  quote ++ escape s ++ quote.

Definition int_repr (n : Z) : string := NilZero.string_of_int (Z.to_int n).

(** [sorted(dct.items())]: a stable insertion sort on the key.  Keys of a
    dict are distinct, so the values are never compared. *)
Fixpoint insert_item {V : Type} (kv : string * V) (l : list (string * V))
  : list (string * V) :=
  match l with
  | [] => [kv]
  | kv' :: rest =>
      if String.leb (fst kv) (fst kv') then kv :: l
      else kv' :: insert_item kv rest
  end.

Fixpoint sorted_items {V : Type} (l : list (string * V)) : list (string * V) :=
  match l with
  | [] => []
  | kv :: rest => insert_item kv (sorted_items rest)
  end.

Section Dumps.
Variable sort_keys : bool.
Variables item_separator key_separator : string.

Definition render_item (kv : string * string) : string :=
  encode_basestring_ascii (fst kv) ++ key_separator ++ snd kv.

(** The items of a dict are rendered value by value and then ordered;
    the order only looks at keys, so this is the encoder's
    order-then-render. *)
Fixpoint dumps_with (j : json) : string :=
  match j with
  | JNull => "null"
  | JBool true => "true"
  | JBool false => "false"
  | JInt n => int_repr n
  | JStr s => encode_basestring_ascii s
  | JList elems =>
      "[" ++ String.concat item_separator (map dumps_with elems) ++ "]"
  | JDict items =>
      let rendered := map (fun kv => (fst kv, dumps_with (snd kv))) items in
      let ordered := if sort_keys then sorted_items rendered else rendered in
      "{" ++ String.concat item_separator (map render_item ordered) ++ "}"
  end.
End Dumps.

(** [json.dumps(obj)] with the default separators. *)
Definition dumps : json -> string := dumps_with false ", " ": ".

(** [json.dumps(obj, sort_keys=True, separators=(',', ':'))]. *)
Definition dumps_canonical : json -> string := dumps_with true "," ":".

(** [str.encode('utf-8')] on code points below 256. *)
Definition utf8_char (c : ascii) : bytes :=
  let n := N_of_ascii c in
  if (n <? 128)%N then [byte_of_ascii c]
  else [byte_of_ascii (ascii_of_N (192 + n / 64));
        byte_of_ascii (ascii_of_N (128 + n mod 64))].

Fixpoint encode_utf8 (s : string) : bytes :=
  match s with
  | EmptyString => []
  | String c rest => (utf8_char c ++ encode_utf8 rest)%list
  end.

(** The items of a dict with their values rendered, before ordering. *)
Definition rendered (items : list (string * json)) : list (string * string) :=
  map (fun kv => (fst kv, dumps_canonical (snd kv))) items.

(** Two value trees with the same logical content: equal scalars, lists
    equal element by element, dicts holding the same items whatever the
    order in which they were inserted. *)
Inductive same_content : json -> json -> Prop :=
| sc_null : same_content JNull JNull
| sc_bool b : same_content (JBool b) (JBool b)
| sc_int n : same_content (JInt n) (JInt n)
| sc_str s : same_content (JStr s) (JStr s)
| sc_list xs ys : same_elems xs ys -> same_content (JList xs) (JList ys)
| sc_dict xs ys : same_items xs ys -> same_content (JDict xs) (JDict ys)
with same_elems : list json -> list json -> Prop :=
| se_nil : same_elems [] []
| se_cons x y xs ys :
    same_content x y -> same_elems xs ys -> same_elems (x :: xs) (y :: ys)
with same_items : list (string * json) -> list (string * json) -> Prop :=
| si_nil : same_items [] []
| si_cons k x y xs ys :
    same_content x y -> same_items xs ys ->
    same_items ((k, x) :: xs) ((k, y) :: ys)
| si_reorder_l xs xs' ys :
    NoDup (map fst xs) -> Permutation xs xs' -> same_items xs' ys ->
    same_items xs ys
| si_reorder_r xs ys ys' :
    NoDup (map fst ys) -> Permutation ys ys' -> same_items xs ys' ->
    same_items xs ys.

Scheme same_content_ind' := Minimality for same_content Sort Prop
  with same_elems_ind' := Minimality for same_elems Sort Prop
  with same_items_ind' := Minimality for same_items Sort Prop.
Combined Scheme same_content_mutind
  from same_content_ind', same_elems_ind', same_items_ind'.

End Json.

Import Json.

(** ** Bytes, hexadecimal text and integers *)

Definition byte_val (b : Byte.byte) : Z := Z.of_N (Byte.to_N b).

Definition byte_of_Z (n : Z) : Byte.byte :=
  match Byte.of_N (Z.to_N n) with
  | Some b => b
  | None => Byte.x00
  end.

(** [eth_utils.big_endian_to_int]. *)
Definition big_endian_to_int (bs : bytes) : Z :=
  fold_left (fun acc b => 256 * acc + byte_val b) bs 0.

Fixpoint be_digits (length : nat) (n : Z) : bytes :=
  match length with
  | O => []
  | S k => (be_digits k (n / 256) ++ [byte_of_Z (n mod 256)])%list
  end.

(** [int.to_bytes(length, 'big')]: unsigned, [OverflowError] when the value
    is negative or does not fit. *)
Definition to_bytes (n : Z) (length : nat) : outcome bytes :=
  if (n <? 0) || (256 ^ Z.of_nat length <=? n) then Raise OverflowError
  else Ok (be_digits length n).

Definition hex_of_byte (b : Byte.byte) : string :=
  let n := Byte.to_N b in
  String (hex_digit (n / 16)) (String (hex_digit (n mod 16)) EmptyString).

(** [bytes.hex()]. *)
Fixpoint hex (bs : bytes) : string :=
  match bs with
  | [] => EmptyString
  | b :: rest => hex_of_byte b ++ hex rest
  end.

Definition hex_value (c : ascii) : option Z :=
  let n := Z.of_N (N_of_ascii c) in
  if (48 <=? n) && (n <=? 57) then Some (n - 48)
  else if (97 <=? n) && (n <=? 102) then Some (n - 87)
  else if (65 <=? n) && (n <=? 70) then Some (n - 55)
  else None.

Fixpoint parse_hex (acc : Z) (s : string) : option Z :=
  match s with
  | EmptyString => Some acc
  | String c rest =>
      match hex_value c with
      | Some d => parse_hex (16 * acc + d) rest
      | None => None
      end
  end.

(** [s.startswith('0x')] and the slice [s[2:]]. *)
Definition startswith_0x (s : string) : bool := String.prefix "0x" s.

Definition slice_from_2 (s : string) : string :=
  match s with
  | String _ (String _ rest) => rest
  | _ => EmptyString
  end.

(** [int(s, 16)]: an optional sign, an optional [0x] or [0X] prefix, at
    least one hexadecimal digit.  Surrounding white space and underscores
    between digits, which Python also accepts, are not modelled. *)
Definition int_base16 (s : string) : outcome Z :=
  let '(sign, body) :=
    match s with
    | String "-"%char rest => (-1, rest)
    | String "+"%char rest => (1, rest)
    | _ => (1, s)
    end in
  let digits :=
    if String.prefix "0x" body || String.prefix "0X" body
    then slice_from_2 body else body in
  match digits with
  | EmptyString => Raise ValueError
  | _ => match parse_hex 0 digits with
         | Some n => Ok (sign * n)
         | None => Raise ValueError
         end
  end.

(** ** coincurve private keys *)

Record PrivateKey : Type := { secret : Z }.

Definition GROUP_ORDER_INT : Z :=
  0xFFFFFFFFFFFFFFFFFFFFFFFFFFFFFFFEBAAEDCE6AF48A03BBFD25E8CD0364141.

(** [PrivateKey.from_hex]: the text is unhexlified, so every character has
    to be a hexadecimal digit, and the scalar must lie strictly between 0 and
    the group order; [ValueError] otherwise. *)
Definition from_hex (hexed : string) : outcome PrivateKey :=
  match parse_hex 0 hexed with
  | Some n =>
      if (0 <? n) && (n <? GROUP_ORDER_INT) then Ok {| secret := n |}
      else Raise ValueError
  | None => Raise ValueError
  end.

(** ** Messages *)

Record EIPRequest : Type := {
  slotId : Z;
  deadline : Z;
  snapshotCid : string;
  epochId : Z;
  projectId : string;
}.

Record SnapshotSubmission : Type := {
  request : EIPRequest;
  signature : string;
  header : string;
}.

Record SnapshotterStatus : Type := {
  totalSuccessfulSubmissions : Z;
  totalMissedSubmissions : Z;
  consecutiveMissedSubmissions : Z;
}.

Inductive SnapshotterReportState : Type := MISSED_SNAPSHOT.

Record SnapshotterIssue : Type := {
  instanceID : string;
  issueType : SnapshotterReportState;
  projectID : string;
  issueEpochId : string;
  timeOfReporting : string;
  extra : string;
}.

Record SnapshotterReportData : Type := {
  snapshotterIssue : SnapshotterIssue;
  snapshotterStatus : SnapshotterStatus;
}.

(** The block returned by [eth_get_block]: [number] is hexadecimal text. *)
Record block : Type := {
  number : string;
  hash : string;
}.

(** The httpx response of the archival backend, as far as the worker looks
    at it. *)
Record response : Type := {
  raise_for_status : outcome unit;
  json_body : outcome string;
}.

(** ** Settings, libraries and the awaited world *)

Record settings : Type := {
  instance_id : string;
  settings_slot_id : Z;
  signer_private_key : string;
  ipfs_url : string;
  deadline_buffer : Z;
  web3storage_api_token : string;
}.

Record library : Type := {
  (** [ipfs_cid.cid_sha256_hash] *)
  cid_sha256_hash : bytes -> string;
  (** [request.signable_bytes(self._domain_separator)] *)
  signable_bytes : EIPRequest -> outcome bytes;
  (** [PrivateKey.sign_recoverable(message, hasher=keccak)] *)
  sign_recoverable : PrivateKey -> bytes -> outcome bytes;
}.

Record oracle : Type := {
  (** answer of the [n]-th call of [_ipfs_writer_client.add_bytes] *)
  add_bytes : nat -> bytes -> outcome string;
  (** the [n]-th draw of [random.random()], in [0, 1) *)
  random : nat -> Q;
  eth_get_block : outcome block;
  (** entering and leaving [SubmitSnapshot.open()] *)
  stream_open : outcome unit;
  stream_close : outcome unit;
  send_message : SnapshotSubmission -> outcome unit;
  recv_message : outcome string;
  (** [asyncio.wait_for(stream.cancel(), timeout)] *)
  stream_cancel : outcome unit;
  (** [str(time.time())] *)
  time_now : string;
  (** answer of the [n]-th POST to the archival backend *)
  web3_storage_post : nat -> bytes -> outcome response;
}.

Record env : Type := {
  cfg : settings;
  lib : library;
  io : oracle;
}.

(** ** Worker state, effects and the call monad *)

Inductive level : Type := DEBUG | INFO | WARNING | ERROR.

Inductive event : Type :=
| IpfsAddBytes (snapshot : bytes)
| Sleep (seconds : Q)
| EthGetBlock
| StreamOpen
| StreamClose
| SendMessage (msg : SnapshotSubmission)
| RecvMessage
| StreamCancel (timeout : Z)
| FailureNotification (message : SnapshotterReportData)
| EnsureFuture (snapshot : bytes)
| Web3StoragePost (snapshot : bytes)
| Log (lvl : level) (text : string).

Record GenericAsyncWorker : Type := {
  status : SnapshotterStatus;
  _private_key : string;
  _identity_private_key : PrivateKey;
}.

Record state : Type := {
  self : GenericAsyncWorker;
  trace : list event;
}.

Definition M (A : Type) : Type := state -> outcome A * state.

Definition ret {A} (a : A) : M A := fun st => (Ok a, st).

Definition raise {A} (e : exn) : M A := fun st => (Raise e, st).

Definition bind {A B} (c : M A) (k : A -> M B) : M B :=
  fun st =>
    match c st with
    | (Ok a, st') => k a st'
    | (Raise e, st') => (Raise e, st')
    end.

Declare Scope worker_scope.
Delimit Scope worker_scope with worker.
Notation "x <- c ;; k" := (bind c (fun x => k))
  (at level 100, c at next level, right associativity) : worker_scope.
Notation "c ;; k" := (bind c (fun _ => k))
  (at level 100, right associativity) : worker_scope.
Local Open Scope worker_scope.

Definition lift {A} (o : outcome A) : M A := fun st => (o, st).

Definition emit (ev : event) : M unit :=
  fun st => (Ok tt, {| self := self st; trace := (trace st ++ [ev])%list |}).

Definition log (lvl : level) (text : string) : M unit := emit (Log lvl text).

(** An awaited call: the effect is recorded, the oracle answers. *)
Definition await {A} (ev : event) (answer : outcome A) : M A :=
  emit ev ;; lift answer.

Definition get_status : M SnapshotterStatus :=
  fun st => (Ok (status (self st)), st).

Definition set_status (s : SnapshotterStatus) : M unit :=
  fun st =>
    (Ok tt,
     {| self := {| status := s;
                   _private_key := _private_key (self st);
                   _identity_private_key := _identity_private_key (self st) |};
        trace := trace st |}).

(** [try: body / except ...: / else: orelse].  [handlers e] is the suite of
    the first [except] clause that matches [e], if any. *)
Definition try_except_else {A B}
  (body : M A) (handlers : exn -> option (M B)) (orelse : A -> M B) : M B :=
  fun st =>
    match body st with
    | (Ok a, st') => orelse a st'
    | (Raise e, st') =>
        match handlers e with
        | Some suite => suite st'
        | None => (Raise e, st')
        end
    end.

(** [async with cm: body], for a context manager whose [__aexit__] does not
    suppress exceptions: an exception of [__aexit__] replaces the outcome of
    the body. *)
Definition async_with {A} (aenter aexit : M unit) (body : M A) : M A :=
  fun st =>
    match aenter st with
    | (Raise e, st1) => (Raise e, st1)
    | (Ok _, st1) =>
        let '(r, st2) := body st1 in
        match aexit st2 with
        | (Ok _, st3) => (r, st3)
        | (Raise e, st3) => (Raise e, st3)
        end
    end.

Definition get_self : M GenericAsyncWorker := fun st => (Ok (self st), st).

(** Truth value of a Python [str]. *)
Definition truthy (s : string) : bool :=
  match s with
  | EmptyString => false
  | _ => true
  end.

(** ** tenacity *)

(** [wait_exponential(multiplier, max)]: the upper end of the backoff window
    after the given attempt, [max(0, min(multiplier * 2 ** (n - 1), max))]. *)
Definition wait_exponential (multiplier max_wait : Z) (attempt_number : nat) : Z :=
  Z.max 0 (Z.min (multiplier * 2 ^ (Z.of_nat attempt_number - 1)) max_wait).

(** [wait_random_exponential]: [random.uniform(0, high)], that is the draw
    [u] of [random.random()] scaled by [high].  Seconds are exact rationals
    here, floats in the source. *)
Definition wait_random_exponential
  (multiplier max_wait : Z) (u : Q) (attempt_number : nat) : Q :=
  (u * inject_Z (wait_exponential multiplier max_wait attempt_number))%Q.

Record retry_policy : Type := {
  wait_multiplier : Z;
  wait_max : Z;
  stop_after_attempt : nat;
  (** the [retry=] predicate on the exception of a failed attempt *)
  retry_if : exn -> bool;
  (** the [after=] callback, given [retry_state.outcome.failed] *)
  after : bool -> M unit;
}.

(** The retry loop of [tenacity.AsyncRetrying].  [remaining] is
    [stop_after_attempt - attempt_number].  A failed attempt whose exception
    the predicate rejects re-raises it at once; otherwise the [after]
    callback runs, then the stop condition [attempt_number >= max] raises
    [RetryError], or the loop sleeps and tries again. *)
Fixpoint retrying {A} (E : env) (P : retry_policy)
  (remaining attempt_number : nat) (fn : nat -> M A) : M A :=
  try_except_else (fn attempt_number)
    (fun e =>
       if retry_if P e then
         Some (after P true ;;
               match remaining with
               | O => raise RetryError
               | S r =>
                   emit (Sleep (wait_random_exponential
                                  (wait_multiplier P) (wait_max P)
                                  (random (io E) attempt_number)
                                  attempt_number)) ;;
                   retrying E P r (S attempt_number) fn
               end)
       else None)
    ret.

Definition retry {A} (E : env) (P : retry_policy) (fn : nat -> M A) : M A :=
  retrying E P (stop_after_attempt P - 1) 1 fn.

(** [tenacity.retry_if_not_exception_type(cls)]. *)
Definition retry_if_not_exception_type (cls : exn) (e : exn) : bool :=
  negb (exn_eqb e cls).

Definition web3_storage_retry_state_callback (failed : bool) : M unit :=
  if failed then log WARNING "Encountered web3 storage upload exception"
  else ret tt.

Definition ipfs_upload_retry_state_callback (failed : bool) : M unit :=
  if failed then log WARNING "Encountered ipfs upload exception"
  else ret tt.

Definition web3_storage_policy : retry_policy :=
  {| wait_multiplier := 1;
     wait_max := 10;
     stop_after_attempt := 5;
     retry_if := retry_if_not_exception_type HTTPStatusError;
     after := web3_storage_retry_state_callback |}.

Definition ipfs_policy : retry_policy :=
  {| wait_multiplier := 1;
     wait_max := 10;
     stop_after_attempt := 5;
     retry_if := retry_if_not_exception_type IPFSAsyncClientError;
     after := ipfs_upload_retry_state_callback |}.

(** ** The two uploads *)

Definition _upload_web3_storage (E : env) (snapshot : bytes) : M unit :=
  retry E web3_storage_policy
    (fun n =>
       if negb (truthy (web3storage_api_token (cfg E))) then ret tt
       else
         r <- await (Web3StoragePost snapshot)
                    (web3_storage_post (io E) n snapshot) ;;
         lift (raise_for_status r) ;;
         resp <- lift (json_body r) ;;
         log INFO "Uploaded snapshot to web3 storage").

Definition _upload_to_ipfs (E : env) (snapshot : bytes) : M string :=
  retry E ipfs_policy
    (fun n =>
       snapshot_cid <- await (IpfsAddBytes snapshot)
                             (add_bytes (io E) n snapshot) ;;
       ret snapshot_cid).

(** ** Signing *)

(** The part of [_init_rpc_helper] that sets up the keys, on a worker fresh
    from [__init__] (all counters zero). *)
Definition _init_rpc_helper (E : env) : outcome GenericAsyncWorker :=
  let private_key := signer_private_key (cfg E) in
  let private_key :=
    if startswith_0x private_key then slice_from_2 private_key
    else private_key in
  match from_hex (signer_private_key (cfg E)) with
  | Ok identity =>
      Ok {| status := {| totalSuccessfulSubmissions := 0;
                         totalMissedSubmissions := 0;
                         consecutiveMissedSubmissions := 0 |};
            _private_key := private_key;
            _identity_private_key := identity |}
  | Raise e => Raise e
  end.

(** [signature[64]]. *)
Definition index_64 (sig : bytes) : outcome Byte.byte :=
  match nth_error sig 64 with
  | Some b => Ok b
  | None => Raise IndexError
  end.

Definition generate_signature (E : env)
  (snapshot_cid : string) (epoch_id : Z) (project_id : string)
  (slot_id : option Z) (private_key : option string)
  : M (EIPRequest * bytes * string) :=
  current_block <- await EthGetBlock (eth_get_block (io E)) ;;
  current_block_number <- lift (int_base16 (number current_block)) ;;
  let current_block_hash := hash current_block in
  let deadline := current_block_number + deadline_buffer (cfg E) in
  let request_slot_id :=
    match slot_id with
    | Some s => if s =? 0 then settings_slot_id (cfg E) else s
    | None => settings_slot_id (cfg E)
    end in
  let request := {| slotId := request_slot_id;
                    deadline := deadline;
                    snapshotCid := snapshot_cid;
                    epochId := epoch_id;
                    projectId := project_id |} in
  signable <- lift (signable_bytes (lib E) request) ;;
  sig <- match private_key with
         | Some pk =>
             if truthy pk then
               let pk := if startswith_0x pk then slice_from_2 pk else pk in
               signer_private_key <- lift (from_hex pk) ;;
               lift (sign_recoverable (lib E) signer_private_key signable)
             else
               w <- get_self ;;
               lift (sign_recoverable (lib E) (_identity_private_key w) signable)
         | None =>
             w <- get_self ;;
             lift (sign_recoverable (lib E) (_identity_private_key w) signable)
         end ;;
  recid <- lift (index_64 sig) ;;
  let v := byte_val recid + 27 in
  let r := big_endian_to_int (firstn 32 sig) in
  let s := big_endian_to_int (firstn 32 (skipn 32 sig)) in
  r_bytes <- lift (to_bytes r 32) ;;
  s_bytes <- lift (to_bytes s 32) ;;
  v_bytes <- lift (to_bytes v 1) ;;
  let final_sig := (r_bytes ++ s_bytes ++ v_bytes)%list in
  ret (request, final_sig, current_block_hash).

(** ** Submission to the collector *)

Definition CANCEL_TIMEOUT : Z := 10.

(** The body always leaves through [return], so neither [stream.end()] nor
    the [else] suite of the [try] is ever reached. *)
Definition _send_msg_with_closure (E : env)
  (msg : SnapshotSubmission) (simulation : bool) : M unit :=
  async_with
    (await StreamOpen (stream_open (io E)))
    (await StreamClose (stream_close (io E)))
    (try_except_else
       (await (SendMessage msg) (send_message (io E) msg) ;;
        log DEBUG "Sent message to local collector" ;;
        response <- await RecvMessage (recv_message (io E)) ;;
        log DEBUG "Received response from local collector" ;;
        (if simulation
         then log INFO "Simulation snapshot submitted successfully to local collector"
         else log INFO "Snapshot submitted successfully to local collector") ;;
        ret tt)
       (fun e =>
          match e with
          | ConnectionResetError | GRPCError =>
              Some
                (log ERROR "Probable grpc failure to send snapshot" ;;
                 try_except_else
                   (await (StreamCancel CANCEL_TIMEOUT) (stream_cancel (io E)))
                   (fun e' =>
                      match e' with
                      | TimeoutError =>
                          Some (log ERROR "Timeout in cancelling stream for snapshot")
                      | CancelledError =>
                          Some (log INFO "Stream for snapshot was already cancelled")
                      | _ =>
                          if is_Exception e'
                          then Some (log ERROR "Probable exception in cancelling stream for snapshot")
                          else None
                      end)
                   ret)
          | CancelledError =>
              Some (log INFO "Task to send snapshot to local collector was asyncio cancelled!")
          | _ =>
              if is_Exception e
              then Some (log ERROR "Probable failure to send snapshot")
              else None
          end)
       ret).

(** Building the protobuf [Request] and [SnapshotSubmission] is taken to
    succeed. *)
Definition _send_submission_to_collector (E : env)
  (snapshot_cid : string) (epoch_id : Z) (project_id : string)
  (slot_id : option Z) (private_key : option string) : M unit :=
  log DEBUG "Sending submission to collector..." ;;
  res <- generate_signature E snapshot_cid epoch_id project_id slot_id private_key ;;
  let '(request_, sig, current_block_hash) := res in
  log DEBUG "Snapshot submission creation with request" ;;
  let msg := {| request := request_;
                signature := hex sig;
                header := current_block_hash |} in
  log DEBUG "Snapshot submission created" ;;
  let simulation := epoch_id =? 0 in
  try_except_else
    (_send_msg_with_closure E msg simulation)
    (fun e =>
       match e with
       | TimeoutError =>
           Some (log ERROR "Timeout in _send_submission_to_collector while sending snapshot to local collector")
       | _ =>
           if is_Exception e
           then Some (log ERROR "Probable exception in _send_submission_to_collector while sending snapshot to local collector")
           else None
       end)
    (fun _ => log INFO "In _send_submission_to_collector successfully sent snapshot to local collector").

(** ** Failure accounting and the commit *)

(** Modelled from the spec: [send_failure_notifications_async] of
    [snapshotter/utils/callback_helpers.py] is not part of the sources.  The
    report is handed to the notification sink and the call returns; a failure
    of the sink is the sink's concern. *)
Definition send_failure_notifications_async (message : SnapshotterReportData)
  : M unit :=
  emit (FailureNotification message).

Definition UPLOAD_FAILED : string :=
  "Exception uploading snapshot to IPFS, sending failure notifications".

Definition SUBMISSION_FAILED : string :=
  "Exception submitting snapshot to collector, sending failure notifications".

(** The suite of both [except Exception as e] clauses of [_commit_payload],
    which differ in the logged text [what] only: the two miss counters go up
    by one and a MISSED_SNAPSHOT report, carrying the status as it then
    stands, is sent. *)
Definition report_missed_snapshot (E : env) (what : string)
  (project_id : string) (epoch_epochId : Z) (e : exn) : M unit :=
  log ERROR what ;;
  s <- get_status ;;
  set_status {| totalSuccessfulSubmissions := totalSuccessfulSubmissions s;
                totalMissedSubmissions := totalMissedSubmissions s + 1;
                consecutiveMissedSubmissions := consecutiveMissedSubmissions s |} ;;
  s <- get_status ;;
  set_status {| totalSuccessfulSubmissions := totalSuccessfulSubmissions s;
                totalMissedSubmissions := totalMissedSubmissions s;
                consecutiveMissedSubmissions := consecutiveMissedSubmissions s + 1 |} ;;
  s <- get_status ;;
  let notification_message :=
    {| snapshotterIssue :=
         {| instanceID := instance_id (cfg E);
            issueType := MISSED_SNAPSHOT;
            projectID := project_id;
            issueEpochId := int_repr epoch_epochId;
            timeOfReporting := time_now (io E);
            extra := dumps (JDict [("issueDetails",
                                    JStr ("Error : " ++ exn_name e))]) |};
       snapshotterStatus := s |} in
  send_failure_notifications_async notification_message.

(** The body of the first [try] of [_commit_payload]: the IPFS upload when a
    backend is configured, the local content hash otherwise. *)
Definition upload_step (E : env) (snapshot_bytes : bytes) : M string :=
  if truthy (ipfs_url (cfg E))
  then _upload_to_ipfs E snapshot_bytes
  else ret (cid_sha256_hash (lib E) snapshot_bytes).

(** The innermost [else] suite of [_commit_payload]. *)
Definition record_success : M unit :=
  s <- get_status ;;
  set_status {| totalSuccessfulSubmissions := totalSuccessfulSubmissions s;
                totalMissedSubmissions := totalMissedSubmissions s;
                consecutiveMissedSubmissions := 0 |} ;;
  s <- get_status ;;
  set_status {| totalSuccessfulSubmissions := totalSuccessfulSubmissions s + 1;
                totalMissedSubmissions := totalMissedSubmissions s;
                consecutiveMissedSubmissions := consecutiveMissedSubmissions s |}.

(** [if storage_flag: asyncio.ensure_future(self._upload_web3_storage(...))]:
    the archival upload is handed to the event loop and not awaited. *)
Definition spawn_archival (storage_flag : bool) (snapshot_bytes : bytes) : M unit :=
  if storage_flag then emit (EnsureFuture snapshot_bytes) else ret tt.

(** The local [snapshot_cid] is bound only when the upload succeeds, and is
    read by the final [return]. *)
Definition _commit_payload (E : env)
  (task_type : string) (project_id : string) (epoch_epochId : Z)
  (snapshot : json) (storage_flag : bool) : M string :=
  let snapshot_json := dumps_canonical snapshot in
  let snapshot_bytes := encode_utf8 snapshot_json in
  snapshot_cid <-
    try_except_else
      (upload_step E snapshot_bytes)
      (fun e =>
         if is_Exception e
         then Some (report_missed_snapshot E UPLOAD_FAILED project_id
                      epoch_epochId e ;;
                    ret None)
         else None)
      (fun snapshot_cid =>
         try_except_else
           (_send_submission_to_collector E snapshot_cid epoch_epochId
              project_id None None)
           (fun e =>
              if is_Exception e
              then Some (report_missed_snapshot E SUBMISSION_FAILED project_id
                           epoch_epochId e)
              else None)
           (fun _ => record_success) ;;
         ret (Some snapshot_cid)) ;;
  spawn_archival storage_flag snapshot_bytes ;;
  match snapshot_cid with
  | Some cid => ret cid
  | None => raise UnboundLocalError
  end.


(** Commits run one after the other on the same worker, each against the
    world it meets; a commit that raises does not stop the next one. *)
Record commit_call : Type := {
  call_env : env;
  call_project_id : string;
  call_epochId : Z;
  call_snapshot : json;
  call_storage_flag : bool;
}.

Definition run_commit (c : commit_call) (st : state) : outcome string * state :=
  _commit_payload (call_env c) "task" (call_project_id c) (call_epochId c)
    (call_snapshot c) (call_storage_flag c) st.

Fixpoint run_commits (cs : list commit_call) (st : state) : state :=
  match cs with
  | [] => st
  | c :: rest => run_commits rest (snd (run_commit c st))
  end.

(** ** Observations on a trace *)

Definition is_notification (ev : event) : bool :=
  match ev with FailureNotification _ => true | _ => false end.

Definition is_network_call (ev : event) : bool :=
  match ev with
  | IpfsAddBytes _ | Web3StoragePost _ => true
  | _ => false
  end.

Definition is_submission_event (ev : event) : bool :=
  match ev with
  | EthGetBlock | StreamOpen | StreamClose | SendMessage _ | RecvMessage
  | StreamCancel _ => true
  | _ => false
  end.

Definition is_archival_spawn (ev : event) : bool :=
  match ev with EnsureFuture _ => true | _ => false end.

Definition count (p : event -> bool) (tr : list event) : nat :=
  List.length (filter p tr).

Fixpoint sleeps (tr : list event) : list Q :=
  match tr with
  | [] => []
  | Sleep q :: rest => q :: sleeps rest
  | _ :: rest => sleeps rest
  end.

Definition notifications (tr : list event) : list SnapshotterReportData :=
  flat_map (fun ev => match ev with
                      | FailureNotification m => [m]
                      | _ => []
                      end) tr.

(** The two ways a commit moves the counters. *)
Definition missed_update (s s' : SnapshotterStatus) : Prop :=
  totalMissedSubmissions s' = totalMissedSubmissions s + 1 /\
  consecutiveMissedSubmissions s' = consecutiveMissedSubmissions s + 1 /\
  totalSuccessfulSubmissions s' = totalSuccessfulSubmissions s.

Definition success_update (s s' : SnapshotterStatus) : Prop :=
  totalSuccessfulSubmissions s' = totalSuccessfulSubmissions s + 1 /\
  consecutiveMissedSubmissions s' = 0 /\
  totalMissedSubmissions s' = totalMissedSubmissions s.

(** An action that leaves the worker alone and adds no event of class [p]. *)
Definition preserves {A} (p : event -> bool) (c : M A) : Prop :=
  forall st,
    self (snd (c st)) = self st /\
    filter p (trace (snd (c st))) = filter p (trace st).

(** What the [except] clauses around [stream.cancel()] absorb. *)
Definition swallowed (o : outcome unit) : Prop :=
  match o with
  | Ok _ => True
  | Raise e => e = CancelledError \/ is_Exception e = true
  end.

(** ** Sample worlds *)

Module Sample.

(** A stand-in for the content hash: the hexadecimal text of the bytes. *)
Definition toy_hash (b : bytes) : string := "cid-" ++ hex b.

Definition toy_signable (r : EIPRequest) : outcome bytes :=
  Ok (encode_utf8 (snapshotCid r ++ projectId r)).

(** A stand-in signer: a 65-byte value that depends on the key, with
    recovery id 1. *)
Definition toy_sign (k : PrivateKey) (m : bytes) : outcome bytes :=
  Ok (repeat (byte_of_Z (secret k mod 256)) 32 ++ repeat Byte.x2a 32
      ++ [Byte.x01])%list.

Definition toy_lib : library :=
  {| cid_sha256_hash := toy_hash;
     signable_bytes := toy_signable;
     sign_recoverable := toy_sign |}.

Definition a_response : response :=
  {| raise_for_status := Ok tt; json_body := Ok "{}" |}.

(** Every awaited call succeeds. *)
Definition calm : oracle :=
  {| add_bytes := fun _ _ => Ok "QmSnapshot";
     random := fun _ => (1 # 2)%Q;
     eth_get_block := Ok {| number := "0x64"; hash := "0xabc" |};
     stream_open := Ok tt;
     stream_close := Ok tt;
     send_message := fun _ => Ok tt;
     recv_message := Ok "ack";
     stream_cancel := Ok tt;
     time_now := "1700000000.0";
     web3_storage_post := fun _ _ => Ok a_response |}.

Definition with_send (o : outcome unit) (w : oracle) : oracle :=
  {| add_bytes := add_bytes w; random := random w;
     eth_get_block := eth_get_block w;
     stream_open := stream_open w; stream_close := stream_close w;
     send_message := fun _ => o;
     recv_message := recv_message w; stream_cancel := stream_cancel w;
     time_now := time_now w; web3_storage_post := web3_storage_post w |}.

Definition with_cancel (o : outcome unit) (w : oracle) : oracle :=
  {| add_bytes := add_bytes w; random := random w;
     eth_get_block := eth_get_block w;
     stream_open := stream_open w; stream_close := stream_close w;
     send_message := send_message w;
     recv_message := recv_message w; stream_cancel := o;
     time_now := time_now w; web3_storage_post := web3_storage_post w |}.

Definition with_open (o : outcome unit) (w : oracle) : oracle :=
  {| add_bytes := add_bytes w; random := random w;
     eth_get_block := eth_get_block w;
     stream_open := o; stream_close := stream_close w;
     send_message := send_message w;
     recv_message := recv_message w; stream_cancel := stream_cancel w;
     time_now := time_now w; web3_storage_post := web3_storage_post w |}.

Definition with_close (o : outcome unit) (w : oracle) : oracle :=
  {| add_bytes := add_bytes w; random := random w;
     eth_get_block := eth_get_block w;
     stream_open := stream_open w; stream_close := o;
     send_message := send_message w;
     recv_message := recv_message w; stream_cancel := stream_cancel w;
     time_now := time_now w; web3_storage_post := web3_storage_post w |}.

Definition with_block (o : outcome block) (w : oracle) : oracle :=
  {| add_bytes := add_bytes w; random := random w;
     eth_get_block := o;
     stream_open := stream_open w; stream_close := stream_close w;
     send_message := send_message w;
     recv_message := recv_message w; stream_cancel := stream_cancel w;
     time_now := time_now w; web3_storage_post := web3_storage_post w |}.

Definition with_add_bytes (o : outcome string) (w : oracle) : oracle :=
  {| add_bytes := fun _ _ => o; random := random w;
     eth_get_block := eth_get_block w;
     stream_open := stream_open w; stream_close := stream_close w;
     send_message := send_message w;
     recv_message := recv_message w; stream_cancel := stream_cancel w;
     time_now := time_now w; web3_storage_post := web3_storage_post w |}.

Definition config (key url : string) (buffer : Z) : settings :=
  {| instance_id := "instance-1";
     settings_slot_id := 7;
     signer_private_key := key;
     ipfs_url := url;
     deadline_buffer := buffer;
     web3storage_api_token := "token" |}.

(** No storage backend: content ids come from the local hash. *)
Definition local_env (w : oracle) : env :=
  {| cfg := config "2a" EmptyString 30; lib := toy_lib; io := w |}.

(** An IPFS backend is configured. *)
Definition ipfs_env (w : oracle) : env :=
  {| cfg := config "2a" "http://ipfs:5001" 30; lib := toy_lib; io := w |}.

Definition zero_status : SnapshotterStatus :=
  {| totalSuccessfulSubmissions := 0;
     totalMissedSubmissions := 0;
     consecutiveMissedSubmissions := 0 |}.

Definition fresh : state :=
  {| self := {| status := zero_status;
                _private_key := "2a";
                _identity_private_key := {| secret := 42 |} |};
     trace := [] |}.

Definition snap_a1 : json := JDict [("a", JInt 1)].

Definition snap_ab : json := JDict [("a", JInt 1); ("b", JList [JStr "x"; JNull])].

Definition snap_ba : json := JDict [("b", JList [JStr "x"; JNull]); ("a", JInt 1)].

Definition call (E : env) : commit_call :=
  {| call_env := E; call_project_id := "project"; call_epochId := 5;
     call_snapshot := snap_a1; call_storage_flag := false |}.

End Sample.

(** The key [generate_signature] signs with. *)
Definition signing_key (w : GenericAsyncWorker) (private_key : option string)
  : outcome PrivateKey :=
  match private_key with
  | Some pk =>
      if truthy pk
      then from_hex (if startswith_0x pk then slice_from_2 pk else pk)
      else Ok (_identity_private_key w)
  | None => Ok (_identity_private_key w)
  end.

Definition requested_slot (E : env) (slot_id : option Z) : Z :=
  match slot_id with
  | Some s => if s =? 0 then settings_slot_id (cfg E) else s
  | None => settings_slot_id (cfg E)
  end.

(** An event class none of whose members is a log line, a sleep or a call to
    a storage backend. *)
Definition ignores_uploads (p : event -> bool) : Prop :=
  (forall lvl text, p (Log lvl text) = false) /\
  (forall q, p (Sleep q) = false) /\
  (forall b, p (IpfsAddBytes b) = false) /\
  (forall b, p (Web3StoragePost b) = false).

(** An event class none of whose members is a log line or a step of the
    submission to the collector. *)
Definition ignores_submission (p : event -> bool) : Prop :=
  (forall lvl text, p (Log lvl text) = false) /\
  p EthGetBlock = false /\ p StreamOpen = false /\ p StreamClose = false /\
  (forall m, p (SendMessage m) = false) /\ p RecvMessage = false /\
  (forall t, p (StreamCancel t) = false).

(** A commit hands back [cid], unless an exception outside [Exception]
    (a cancellation) aborted it. *)
Definition returns_or_aborted (cid : string) (r : outcome string) : Prop :=
  r = Ok cid \/ exists e, r = Raise e /\ is_Exception e = false.

Definition is_stream_cancel (ev : event) : bool :=
  match ev with StreamCancel _ => true | _ => false end.

Definition ends_with (suffix tr : list event) : Prop :=
  exists before, tr = (before ++ suffix)%list.


Module Scenario.
Import Sample.

Definition a_msg : SnapshotSubmission :=
  {| request := {| slotId := 7; deadline := 130; snapshotCid := "cid";
                   epochId := 5; projectId := "project" |};
     signature := "00";
     header := "0xabc" |}.

(** The collector stream resets while the message is sent. *)
Definition reset_env : env :=
  local_env (with_send (Raise ConnectionResetError) calm).

(** ... and the cancel of the stream then times out. *)
Definition reset_timeout_env : env :=
  local_env (with_cancel (Raise TimeoutError)
               (with_send (Raise ConnectionResetError) calm)).

(** The send times out. *)
Definition send_timeout_env : env :=
  local_env (with_send (Raise TimeoutError) calm).

(** The IPFS backend reports a client error. *)
Definition ipfs_rejects_env : env :=
  ipfs_env (with_add_bytes (Raise IPFSAsyncClientError) calm).

(** The task is cancelled while the anchor-chain block is fetched. *)
Definition cancelled_env : env :=
  local_env (with_block (Raise CancelledError) calm).

(** The anchor-chain RPC fails while the block is fetched. *)
Definition rpc_down_env : env :=
  local_env (with_block (Raise (OtherException "RPCException")) calm).

(** The connection is reset while the stream is opened. *)
Definition open_reset_env : env :=
  local_env (with_open (Raise ConnectionResetError) calm).

(** The collector answers, and leaving the stream then raises a gRPC
    error. *)
Definition close_error_env : env :=
  local_env (with_close (Raise GRPCError) calm).

(** The task is cancelled while the stream is left. *)
Definition cancelled_at_close_env : env :=
  local_env (with_close (Raise CancelledError) calm).
End Scenario.

(** The ways a commit can end. *)
Inductive commit_outcome : Type :=
| UploadFailure
| SubmissionFailure
| Success
| Aborted.

Definition records (o : commit_outcome)
  (st : state) (r : outcome string) (st' : state) : Prop :=
  let s := status (self st) in
  let s' := status (self st') in
  let before := count is_notification (trace st) in
  let sent := count is_notification (trace st') in
  match o with
  | UploadFailure =>
      r = Raise UnboundLocalError /\ missed_update s s' /\ sent = S before
  | SubmissionFailure =>
      (exists cid, r = Ok cid) /\ missed_update s s' /\ sent = S before
  | Success =>
      (exists cid, r = Ok cid) /\ success_update s s' /\ sent = before
  | Aborted =>
      (exists e, r = Raise e /\ is_Exception e = false) /\
      s' = s /\ sent = before
  end.

(** Every commit of the run ends as a recorded miss. *)
Fixpoint all_missed (cs : list commit_call) (st : state) : Prop :=
  match cs with
  | [] => True
  | c :: rest =>
      (records UploadFailure st (fst (run_commit c st)) (snd (run_commit c st)) \/
       records SubmissionFailure st (fst (run_commit c st)) (snd (run_commit c st)))
      /\ all_missed rest (snd (run_commit c st))
  end.

(** ** Further observations *)

(** What one call of the body of [_upload_web3_storage] comes to when a
    token is configured: the POST, then [raise_for_status], then [json()]. *)
Definition web3_attempt (E : env) (snapshot : bytes) (n : nat) : outcome unit :=
  match web3_storage_post (io E) n snapshot with
  | Ok r =>
      match raise_for_status r with
      | Ok _ =>
          match json_body r with
          | Ok _ => Ok tt
          | Raise e => Raise e
          end
      | Raise e => Raise e
      end
  | Raise e => Raise e
  end.

Definition is_send (ev : event) : bool :=
  match ev with SendMessage _ => true | _ => false end.

Definition is_recv (ev : event) : bool :=
  match ev with RecvMessage => true | _ => false end.

Definition is_stream_close (ev : event) : bool :=
  match ev with StreamClose => true | _ => false end.

Definition is_stream_event (ev : event) : bool :=
  match ev with
  | StreamOpen | StreamClose | SendMessage _ | RecvMessage | StreamCancel _ => true
  | _ => false
  end.

Definition is_rpc_call (ev : event) : bool :=
  match ev with EthGetBlock => true | _ => false end.


(** The messages handed to the collector stream, in order. *)
Definition sent (tr : list event) : list SnapshotSubmission :=
  flat_map (fun ev => match ev with
                      | SendMessage m => [m]
                      | _ => []
                      end) tr.


(** What the counters satisfy on a fresh worker. *)
Definition status_invariant (s : SnapshotterStatus) : Prop :=
  0 <= consecutiveMissedSubmissions s <= totalMissedSubmissions s /\
  0 <= totalSuccessfulSubmissions s.

(** The issue details of a report about [e]. *)
Definition issue_details (e : exn) : string :=
  dumps (JDict [("issueDetails", JStr ("Error : " ++ exn_name e))]).

(** ** Printable text *)

Definition printable_char (c : ascii) : bool :=
  ((32 <=? N_of_ascii c) && (N_of_ascii c <=? 126))%N.

Fixpoint printable (s : string) : bool :=
  match s with
  | EmptyString => true
  | String c rest => printable_char c && printable rest
  end.

(** Induction on a value tree, through its lists and dicts. *)
Section JsonInduction.
Variable P : json -> Prop.
Hypothesis Hnull : P JNull.
Hypothesis Hbool : forall b, P (JBool b).
Hypothesis Hint : forall n, P (JInt n).
Hypothesis Hstr : forall s, P (JStr s).
Hypothesis Hlist : forall elems, Forall P elems -> P (JList elems).
Hypothesis Hdict :
  forall items, Forall (fun kv => P (snd kv)) items -> P (JDict items).

Fixpoint json_induction (j : json) : P j :=
  match j with
  | JNull => Hnull
  | JBool b => Hbool b
  | JInt n => Hint n
  | JStr s => Hstr s
  | JList elems =>
      Hlist elems
        ((fix all (l : list json) : Forall P l :=
            match l with
            | [] => Forall_nil P
            | x :: rest => Forall_cons x (json_induction x) (all rest)
            end) elems)
  | JDict items =>
      Hdict items
        ((fix all (l : list (string * json)) : Forall (fun kv => P (snd kv)) l :=
            match l with
            | [] => Forall_nil _
            | kv :: rest =>
                Forall_cons (P := fun kv => P (snd kv)) kv
                  (json_induction (snd kv)) (all rest)
            end) items)
  end.
End JsonInduction.

(** The order [sorted] puts the items of a dict in. *)
Definition key_le {V : Type} (a b : string * V) : Prop :=
  String.leb (fst a) (fst b) = true.

(** ** The pooled stream: [open_stream] and [_cancel_stream] *)

Inductive channel_event : Type :=
| SubmitSnapshotOpen
| SubmitSnapshotClose
| CancelCall (stream : nat)
| ChannelLog (lvl : level) (text : string).

(** [self._stream] and what happened on the channel. *)
Record channel : Type := {
  _stream : option nat;
  happened : list channel_event;
}.

(** [cancel s] is the outcome of [await stream.cancel()].  The bare
    [except:] absorbs every exception. *)
Definition _cancel_stream (cancel : nat -> outcome unit) (ch : channel)
  : outcome unit * channel :=
  match _stream ch with
  | Some s =>
      let tried := (happened ch ++ [CancelCall s])%list in
      let handled :=
        match cancel s with
        | Ok _ => tried
        | Raise _ =>
            (tried ++ [ChannelLog DEBUG "Error cancelling stream, continuing..."])%list
        end in
      (Ok tt,
       {| _stream := None;
          happened :=
            (handled ++ [ChannelLog DEBUG "Stream cancelled due to inactivity."])%list |})
  | None => (Ok tt, ch)
  end.

(** [async with self.open_stream() as stream: body].  [aenter] and [aexit]
    are the outcomes of entering and leaving [SubmitSnapshot.open()]; the
    [finally] clause resets [self._stream] on every path. *)
Definition open_stream {A} (aenter : outcome nat) (aexit : outcome unit)
  (body : nat -> channel -> outcome A * channel) (ch : channel)
  : outcome A * channel :=
  let entered := (happened ch ++ [SubmitSnapshotOpen])%list in
  match aenter with
  | Raise e => (Raise e, {| _stream := None; happened := entered |})
  | Ok s =>
      let '(r, ch1) := body s {| _stream := Some s; happened := entered |} in
      (match aexit with
       | Ok _ => r
       | Raise e => Raise e
       end,
       {| _stream := None;
          happened := (happened ch1 ++ [SubmitSnapshotClose])%list |})
  end.

Definition cancel_calls (tr : list channel_event) : list nat :=
  flat_map (fun ev => match ev with CancelCall s => [s] | _ => [] end) tr.

(** ** [_httpx_post_wrapper] *)

(** What [r] holds at the [return]: [None] and a decoded body are Python
    values ([None] is [PyJson JNull]), an undecodable answer is its text. *)
Inductive pyvalue : Type :=
| PyJson (j : json)
| PyStr (s : string).

(** The httpx response, as far as the wrapper looks at it: [r.json()] and
    [str(r)]. *)
Record httpx_response : Type := {
  response_json : outcome json;
  response_str : string;
}.

Definition KeyError : exn := OtherException "KeyError".

(** [d[key]] on a dict given by its items. *)
Fixpoint getitem (d : list (string * json)) (key : string) : outcome json :=
  match d with
  | [] => Raise KeyError
  | (k, v) :: rest => if String.eqb k key then Ok v else getitem rest key
  end.

Definition _httpx_post_wrapper
  (post : outcome httpx_response) (req_json : list (string * json))
  : outcome (pyvalue * option exn * json * json * json) :=
  match
    match post with
    | Raise e =>
        if is_Exception e then Ok (PyJson JNull, Some e) else Raise e
    | Ok r =>
        Ok (match response_json r with
            | Ok j => PyJson j
            | Raise _ => PyStr (response_str r)
            end, None)
    end
  with
  | Raise e => Raise e
  | Ok (r, exc) =>
      match getitem req_json "epochId" with
      | Raise e => Raise e
      | Ok epoch_id =>
          match getitem req_json "projectId" with
          | Raise e => Raise e
          | Ok project_id =>
              match getitem req_json "slotId" with
              | Raise e => Raise e
              | Ok slot_id => Ok (r, exc, epoch_id, project_id, slot_id)
              end
          end
      end
  end.

(** ** [_init_protocol_meta] and [init] *)

Inductive meta_event : Type :=
| CallSourceChainBlockTime
| CallEpochSize
| MetaLog (lvl : level) (text : string).

(** [self._source_chain_block_time] and [self._epoch_size], unset on a fresh
    worker, and what the initialisation did.  Seconds are exact rationals. *)
Record protocol_meta : Type := {
  _source_chain_block_time : option Q;
  _epoch_size : option Z;
  meta_trace : list meta_event;
}.

(** The first [try] of [_init_protocol_meta]; the [else] suite, with its
    [source_block_time[0]], is not covered by the [except]. *)
Definition fetch_source_chain_block_time
  (answer : outcome (list Z)) (m : protocol_meta) : outcome unit * protocol_meta :=
  let called := (meta_trace m ++ [CallSourceChainBlockTime])%list in
  match answer with
  | Raise e =>
      if is_Exception e
      then (Ok tt,
            {| _source_chain_block_time := _source_chain_block_time m;
               _epoch_size := _epoch_size m;
               meta_trace :=
                 (called ++ [MetaLog ERROR "Exception in querying protocol state for source chain block time"])%list |})
      else (Raise e,
            {| _source_chain_block_time := _source_chain_block_time m;
               _epoch_size := _epoch_size m;
               meta_trace := called |})
  | Ok [] =>
      (Raise IndexError,
       {| _source_chain_block_time := _source_chain_block_time m;
          _epoch_size := _epoch_size m;
          meta_trace := called |})
  | Ok (source_block_time :: _) =>
      (Ok tt,
       {| _source_chain_block_time :=
            Some (inject_Z source_block_time / inject_Z (10 ^ 4))%Q;
          _epoch_size := _epoch_size m;
          meta_trace :=
            (called ++ [MetaLog DEBUG "Set source chain block time"])%list |})
  end.

Definition fetch_epoch_size
  (answer : outcome (list Z)) (m : protocol_meta) : outcome unit * protocol_meta :=
  let called := (meta_trace m ++ [CallEpochSize])%list in
  match answer with
  | Raise e =>
      if is_Exception e
      then (Ok tt,
            {| _source_chain_block_time := _source_chain_block_time m;
               _epoch_size := _epoch_size m;
               meta_trace :=
                 (called ++ [MetaLog ERROR "Exception in querying protocol state for epoch size"])%list |})
      else (Raise e,
            {| _source_chain_block_time := _source_chain_block_time m;
               _epoch_size := _epoch_size m;
               meta_trace := called |})
  | Ok [] =>
      (Raise IndexError,
       {| _source_chain_block_time := _source_chain_block_time m;
          _epoch_size := _epoch_size m;
          meta_trace := called |})
  | Ok (epoch_size :: _) =>
      (Ok tt,
       {| _source_chain_block_time := _source_chain_block_time m;
          _epoch_size := Some epoch_size;
          meta_trace := (called ++ [MetaLog DEBUG "Set epoch size"])%list |})
  end.

(** The two answers are those of the [web3_call]s for SOURCE_CHAIN_BLOCK_TIME
    and EPOCH_SIZE. *)
Definition _init_protocol_meta
  (source_block_time_answer epoch_size_answer : outcome (list Z))
  (m : protocol_meta) : outcome unit * protocol_meta :=
  match fetch_source_chain_block_time source_block_time_answer m with
  | (Ok _, m1) => fetch_epoch_size epoch_size_answer m1
  | (Raise e, m1) => (Raise e, m1)
  end.

Definition calls_made (tr : list meta_event) : list meta_event :=
  filter (fun ev => match ev with MetaLog _ _ => false | _ => true end) tr.

(** [init]: the four steps are whatever they are on the rest [R] of the
    worker; none of them reads or writes [self.initialized]. *)
Section Init.
Context {R : Type}.
Variables init_httpx_client init_rpc_helper init_protocol_meta init_grpc
  : R -> outcome unit * R.

Definition and_then (first next : R -> outcome unit * R) (r : R)
  : outcome unit * R :=
  match first r with
  | (Ok _, r') => next r'
  | (Raise e, r') => (Raise e, r')
  end.

Definition init (initialized : bool) (r : R) : outcome unit * (bool * R) :=
  if negb initialized then
    match and_then init_httpx_client
            (and_then init_rpc_helper
               (and_then init_protocol_meta init_grpc)) r with
    | (Ok _, r') => (Ok tt, (true, r'))
    | (Raise e, r') => (Raise e, (initialized, r'))
    end
  else (Ok tt, (true, r)).
End Init.

(** What leaves one of the two fetches of [_init_protocol_meta]: an
    exception outside [Exception], or the [IndexError] of an empty answer. *)
Definition escapes (answer : outcome (list Z)) : option exn :=
  match answer with
  | Raise e => if is_Exception e then None else Some e
  | Ok [] => Some IndexError
  | Ok (_ :: _) => None
  end.

Definition fetched (answer : outcome (list Z)) : option Z :=
  match answer with
  | Ok (x :: _) => Some x
  | _ => None
  end.

(** * Facts *)

(** ** Canonical serialisation *)

Module JsonFacts.

Lemma leb_true_iff (a b : string) :
  String.leb a b = true <-> a = b \/ String_as_OT.lt a b.
Proof.
  unfold String.leb. split.
  - destruct (String.compare a b) eqn:C; intro H; try discriminate.
    + left. now apply String.compare_eq_iff.
    + right. now apply String_as_OT.cmp_lt.
  - intros [-> | L].
    + pose proof (String.compare_antisym b b) as A.
      destruct (String.compare b b); simpl in A; trivial; discriminate.
    + apply String_as_OT.cmp_lt in L. unfold String_as_OT.cmp in L.
      now rewrite L.
Qed.

Lemma leb_trans (a b c : string) :
  String.leb a b = true -> String.leb b c = true -> String.leb a c = true.
Proof.
  rewrite !leb_true_iff.
  intros [-> | L1] [-> | L2]; auto.
  right. eapply String_as_OT.lt_trans; eassumption.
Qed.

Lemma leb_false_flip (a b : string) :
  String.leb a b = false -> String.leb b a = true.
Proof.
  intro H. destruct (String.leb_total a b) as [T | T]; congruence.
Qed.

Section Items.
Context {V : Type}.
Implicit Types (kv : string * V) (l : list (string * V)).

Lemma insert_item_swap kv1 kv2 l :
  fst kv1 <> fst kv2 ->
  insert_item kv1 (insert_item kv2 l) = insert_item kv2 (insert_item kv1 l).
Proof.
  intro D. induction l as [| kv l IH]; simpl.
  - destruct (String.leb (fst kv1) (fst kv2)) eqn:L12;
      destruct (String.leb (fst kv2) (fst kv1)) eqn:L21; trivial.
    + exfalso. apply D. now apply String.leb_antisym.
    + apply leb_false_flip in L12. congruence.
  - destruct (String.leb (fst kv2) (fst kv)) eqn:L2;
      destruct (String.leb (fst kv1) (fst kv)) eqn:L1; simpl;
      rewrite ?L1, ?L2;
      destruct (String.leb (fst kv1) (fst kv2)) eqn:L12;
      destruct (String.leb (fst kv2) (fst kv1)) eqn:L21;
      trivial;
      try (exfalso; apply D; now apply String.leb_antisym);
      try (apply leb_false_flip in L12; congruence);
      try (rewrite (leb_trans _ _ _ L12 L2) in L1; discriminate);
      try (rewrite (leb_trans _ _ _ L21 L1) in L2; discriminate).
    now rewrite IH.
Qed.

Lemma sorted_items_reorder l l' :
  Permutation l l' -> NoDup (map fst l) -> sorted_items l = sorted_items l'.
Proof.
  induction 1 as [| x l l' _ IH | x y l | l l' l'' P1 IH1 P2 IH2];
    simpl; intro N.
  - reflexivity.
  - inversion N; subst. now rewrite IH.
  - inversion N as [| ? ? Hy N']; subst.
    apply insert_item_swap. intro E. apply Hy. left. now symmetry.
  - rewrite IH1 by assumption. apply IH2.
    eapply Permutation_NoDup; [apply Permutation_map; eassumption | assumption].
Qed.
End Items.

(** Ordering by key and rendering the values commute: the model's dict case
    is the encoder's [sorted(dct.items())] followed by the rendering. *)
Lemma sorted_items_map_values {V W : Type} (f : V -> W) (l : list (string * V)) :
  sorted_items (map (fun kv => (fst kv, f (snd kv))) l)
  = map (fun kv => (fst kv, f (snd kv))) (sorted_items l).
Proof.
  induction l as [| kv l IH]; simpl; trivial.
  rewrite IH. generalize (sorted_items l) as s.
  induction s as [| kv' s IHs]; simpl; trivial.
  destruct (String.leb (fst kv) (fst kv')); simpl; trivial.
  now rewrite IHs.
Qed.

Lemma dumps_canonical_list xs :
  dumps_canonical (JList xs)
  = "[" ++ String.concat "," (map dumps_canonical xs) ++ "]".
Proof. reflexivity. Qed.

Lemma dumps_canonical_dict xs :
  dumps_canonical (JDict xs)
  = "{" ++ String.concat "," (map (render_item ":") (sorted_items (rendered xs)))
        ++ "}".
Proof. reflexivity. Qed.

Lemma same_content_dumps :
  (forall a b, same_content a b -> dumps_canonical a = dumps_canonical b) /\
  (forall xs ys, same_elems xs ys ->
                 map dumps_canonical xs = map dumps_canonical ys) /\
  (forall xs ys, same_items xs ys ->
                 sorted_items (rendered xs) = sorted_items (rendered ys)).
Proof.
  apply same_content_mutind; intros; trivial.
  - rewrite !dumps_canonical_list. congruence.
  - rewrite !dumps_canonical_dict. congruence.
  - simpl. congruence.
  - simpl. congruence.
  - match goal with H : sorted_items _ = _ |- _ => rewrite <- H end.
    apply sorted_items_reorder.
    + now apply Permutation_map.
    + unfold rendered. now rewrite map_map.
  - match goal with H : sorted_items _ = _ |- _ => rewrite H end.
    symmetry. apply sorted_items_reorder.
    + now apply Permutation_map.
    + unfold rendered. now rewrite map_map.
Qed.

End JsonFacts.

(** ** The call monad *)

Section Preservation.
Variable p : event -> bool.

Lemma filter_snoc (tr : list event) (ev : event) :
  filter p (tr ++ [ev]) = (filter p tr ++ if p ev then [ev] else [])%list.
Proof. rewrite filter_app. simpl. now destruct (p ev). Qed.

Lemma preserves_ret {A} (a : A) : preserves p (ret a).
Proof. intro st. now split. Qed.

Lemma preserves_raise {A} (e : exn) : preserves p (@raise A e).
Proof. intro st. now split. Qed.

Lemma preserves_lift {A} (o : outcome A) : preserves p (lift o).
Proof. intro st. now split. Qed.

Lemma preserves_get_self : preserves p get_self.
Proof. intro st. now split. Qed.

Lemma preserves_emit (ev : event) : p ev = false -> preserves p (emit ev).
Proof.
  intros H st. split; trivial. simpl.
  rewrite filter_snoc, H. apply app_nil_r.
Qed.

Lemma preserves_log lvl text :
  p (Log lvl text) = false -> preserves p (log lvl text).
Proof. apply preserves_emit. Qed.

Lemma preserves_bind {A B} (c : M A) (k : A -> M B) :
  preserves p c -> (forall a, preserves p (k a)) -> preserves p (bind c k).
Proof.
  intros Hc Hk st. unfold bind.
  specialize (Hc st). destruct (c st) as [[a | e] st1]; simpl in *.
  - destruct (Hk a st1) as [H1 H2]. destruct Hc as [H3 H4].
    split; congruence.
  - assumption.
Qed.

Lemma preserves_await {A} (ev : event) (o : outcome A) :
  p ev = false -> preserves p (await ev o).
Proof.
  intro H. apply preserves_bind.
  - now apply preserves_emit.
  - intro. apply preserves_lift.
Qed.

Lemma preserves_try {A B} (body : M A) handlers (orelse : A -> M B) :
  preserves p body ->
  (forall e suite, handlers e = Some suite -> preserves p suite) ->
  (forall a, preserves p (orelse a)) ->
  preserves p (try_except_else body handlers orelse).
Proof.
  intros Hb Hh Ho st. unfold try_except_else.
  specialize (Hb st). destruct (body st) as [[a | e] st1]; simpl in *.
  - destruct (Ho a st1), Hb. split; congruence.
  - destruct (handlers e) as [suite |] eqn:Hs; trivial.
    destruct (Hh e suite Hs st1), Hb. split; congruence.
Qed.

Lemma preserves_async_with {A} (aenter aexit : M unit) (body : M A) :
  preserves p aenter -> preserves p aexit -> preserves p body ->
  preserves p (async_with aenter aexit body).
Proof.
  intros H1 H2 H3 st. unfold async_with.
  specialize (H1 st). destruct (aenter st) as [[[] | e] st1]; simpl in *; trivial.
  specialize (H3 st1). destruct (body st1) as [r st2]; simpl in *.
  specialize (H2 st2). destruct (aexit st2) as [[[] | e] st3]; simpl in *;
    destruct H1, H2, H3; split; congruence.
Qed.

Lemma preserves_retrying {A} (E : env) (P : retry_policy) (fn : nat -> M A) :
  (forall n, preserves p (fn n)) ->
  (forall b, preserves p (after P b)) ->
  (forall q, p (Sleep q) = false) ->
  forall remaining n, preserves p (retrying E P remaining n fn).
Proof.
  intros Hfn Hafter Hsleep.
  induction remaining as [| r IH]; intro n; simpl;
    (apply preserves_try; [apply Hfn | | intro; apply preserves_ret]);
    intros e suite; destruct (retry_if P e); intros [= <-];
    (apply preserves_bind; [apply Hafter | intros _]).
  - apply preserves_raise.
  - apply preserves_bind; [now apply preserves_emit | intros _; apply IH].
Qed.
End Preservation.

Lemma preserves_upload_to_ipfs p E b :
  ignores_uploads p -> preserves p (_upload_to_ipfs E b).
Proof.
  intros (Hlog & Hsleep & Hipfs & _).
  apply preserves_retrying; trivial.
  - intro n. apply preserves_bind; [now apply preserves_await |].
    intro. apply preserves_ret.
  - intros []; simpl; [now apply preserves_log | apply preserves_ret].
Qed.

Lemma preserves_upload_step p E b :
  ignores_uploads p -> preserves p (upload_step E b).
Proof.
  intro H. unfold upload_step. destruct (truthy _).
  - now apply preserves_upload_to_ipfs.
  - apply preserves_ret.
Qed.


Lemma preserves_generate_signature p E cid ep pr sl pk :
  p EthGetBlock = false -> preserves p (generate_signature E cid ep pr sl pk).
Proof.
  intro H. unfold generate_signature.
  apply preserves_bind; [now apply preserves_await | intro blk].
  apply preserves_bind; [apply preserves_lift | intro n].
  apply preserves_bind; [apply preserves_lift | intro sb].
  apply preserves_bind.
  - destruct pk as [k |]; [destruct (truthy k) |];
      repeat first [ apply preserves_bind; [| intro]
                   | apply preserves_lift | apply preserves_get_self ].
  - intro sig.
    repeat first [ apply preserves_bind; [| intro]
                 | apply preserves_lift | apply preserves_ret ].
Qed.

Lemma preserves_send_msg_with_closure p E msg sim :
  ignores_submission p -> preserves p (_send_msg_with_closure E msg sim).
Proof.
  intros (Hlog & Hblk & Hopen & Hclose & Hsend & Hrecv & Hcancel).
  unfold _send_msg_with_closure.
  apply preserves_async_with; try (now apply preserves_await).
  apply preserves_try.
  - apply preserves_bind; [now apply preserves_await | intros _].
    apply preserves_bind; [now apply preserves_log | intros _].
    apply preserves_bind; [now apply preserves_await | intros _].
    apply preserves_bind; [now apply preserves_log | intros _].
    apply preserves_bind; [destruct sim; now apply preserves_log | intros _].
    apply preserves_ret.
  - intros e suite He.
    destruct e; simpl in He; try discriminate; injection He as <-;
      try (now apply preserves_log).
    all: apply preserves_bind; [now apply preserves_log | intros _].
    all: apply preserves_try;
      [ now apply preserves_await
      | intros e' s' He'; destruct e'; simpl in He'; try discriminate;
        injection He' as <-; now apply preserves_log
      | intro; apply preserves_ret ].
  - intro. apply preserves_ret.
Qed.

Lemma preserves_send_submission_to_collector p E cid ep pr sl pk :
  ignores_submission p ->
  preserves p (_send_submission_to_collector E cid ep pr sl pk).
Proof.
  intros H. pose proof H as (Hlog & Hblk & _).
  unfold _send_submission_to_collector.
  apply preserves_bind; [now apply preserves_log | intros _].
  apply preserves_bind; [now apply preserves_generate_signature |].
  intros [[req sig] h].
  apply preserves_bind; [now apply preserves_log | intros _].
  apply preserves_bind; [now apply preserves_log | intros _].
  apply preserves_try.
  - now apply preserves_send_msg_with_closure.
  - intros e suite He. destruct e; simpl in He; try discriminate;
      injection He as <-; now apply preserves_log.
  - intro. now apply preserves_log.
Qed.

Lemma ignores_uploads_notification : ignores_uploads is_notification.
Proof. now repeat split. Qed.

Lemma ignores_uploads_submission : ignores_uploads is_submission_event.
Proof. now repeat split. Qed.

Lemma ignores_submission_notification : ignores_submission is_notification.
Proof. now repeat split. Qed.

(** ** Bytes and integers *)

Lemma byte_val_range (b : Byte.byte) : 0 <= byte_val b <= 255.
Proof.
  unfold byte_val. pose proof (Byte.to_N_bounded b) as H.
  apply N2Z.inj_le in H. simpl in H. lia.
Qed.

Lemma byte_of_Z_val (b : Byte.byte) : byte_of_Z (byte_val b) = b.
Proof.
  unfold byte_of_Z, byte_val. now rewrite N2Z.id, Byte.of_to_N.
Qed.

Lemma byte_val_of_Z (n : Z) : 0 <= n <= 255 -> byte_val (byte_of_Z n) = n.
Proof.
  intro H. unfold byte_of_Z, byte_val.
  destruct (Byte.of_N (Z.to_N n)) as [b |] eqn:Hb.
  - apply Byte.to_of_N in Hb. rewrite Hb. lia.
  - apply Byte.of_N_None_iff in Hb. lia.
Qed.

Lemma big_endian_to_int_snoc (bs : bytes) (b : Byte.byte) :
  big_endian_to_int (bs ++ [b])%list = 256 * big_endian_to_int bs + byte_val b.
Proof. unfold big_endian_to_int. now rewrite fold_left_app. Qed.

Lemma big_endian_to_int_range (bs : bytes) :
  0 <= big_endian_to_int bs < 256 ^ Z.of_nat (List.length bs).
Proof.
  induction bs as [| b bs IH] using rev_ind.
  - cbn. lia.
  - rewrite big_endian_to_int_snoc, length_app, Nat2Z.inj_add. simpl List.length.
    rewrite Z.pow_add_r by lia. pose proof (byte_val_range b). lia.
Qed.

Lemma be_digits_length (k : nat) (n : Z) : List.length (be_digits k n) = k.
Proof.
  revert n. induction k as [| k IH]; intro n; simpl; trivial.
  rewrite length_app, IH. simpl. lia.
Qed.

(** Writing out the integer read from a byte string gives the string back. *)
Lemma be_digits_big_endian_to_int (bs : bytes) :
  be_digits (List.length bs) (big_endian_to_int bs) = bs.
Proof.
  induction bs as [| b bs IH] using rev_ind; trivial.
  rewrite big_endian_to_int_snoc, length_app, Nat.add_comm.
  cbn [List.length Nat.add be_digits].
  pose proof (byte_val_range b) as Hb.
  replace ((256 * big_endian_to_int bs + byte_val b) / 256)
    with (big_endian_to_int bs)
    by (symmetry; rewrite Z.mul_comm, Z.div_add_l by lia;
        rewrite Z.div_small by lia; lia).
  replace ((256 * big_endian_to_int bs + byte_val b) mod 256)
    with (byte_val b)
    by (symmetry; rewrite Z.add_comm, Z.mul_comm, Z.mod_add by lia;
        apply Z.mod_small; lia).
  now rewrite IH, byte_of_Z_val.
Qed.

Lemma big_endian_to_int_be_digits (k : nat) (n : Z) :
  0 <= n < 256 ^ Z.of_nat k -> big_endian_to_int (be_digits k n) = n.
Proof.
  revert n. induction k as [| k IH]; intros n H.
  - cbn in *. lia.
  - simpl be_digits. rewrite big_endian_to_int_snoc.
    rewrite Nat2Z.inj_succ, Z.pow_succ_r in H by lia.
    rewrite IH.
    + rewrite byte_val_of_Z.
      * pose proof (Z.div_mod n 256). lia.
      * pose proof (Z.mod_pos_bound n 256). lia.
    + split; [apply Z.div_pos; lia | apply Z.div_lt_upper_bound; lia].
Qed.

Lemma to_bytes_of_bytes (bs : bytes) :
  to_bytes (big_endian_to_int bs) (List.length bs) = Ok bs.
Proof.
  unfold to_bytes. pose proof (big_endian_to_int_range bs) as H.
  destruct (big_endian_to_int bs <? 0) eqn:L; [lia |].
  destruct (256 ^ Z.of_nat (List.length bs) <=? big_endian_to_int bs) eqn:G; [lia |].
  simpl. now rewrite be_digits_big_endian_to_int.
Qed.

Lemma to_bytes_Ok (n : Z) (k : nat) (bs : bytes) :
  to_bytes n k = Ok bs ->
  0 <= n < 256 ^ Z.of_nat k /\ bs = be_digits k n.
Proof.
  unfold to_bytes.
  destruct (n <? 0) eqn:L; [discriminate |].
  destruct (256 ^ Z.of_nat k <=? n) eqn:G; [discriminate |].
  simpl. intros [= <-]. split; [lia | trivial].
Qed.

(** ** Signing *)

(** What a successful call went through. *)
Lemma generate_signature_Ok E cid ep pr sl pk st req final_sig h st' :
  generate_signature E cid ep pr sl pk st = (Ok (req, final_sig, h), st') ->
  exists blk n signable key raw recid,
    eth_get_block (io E) = Ok blk /\
    int_base16 (number blk) = Ok n /\
    h = hash blk /\
    req = {| slotId := requested_slot E sl;
             deadline := n + deadline_buffer (cfg E);
             snapshotCid := cid; epochId := ep; projectId := pr |} /\
    signable_bytes (lib E) req = Ok signable /\
    signing_key (self st) pk = Ok key /\
    sign_recoverable (lib E) key signable = Ok raw /\
    nth_error raw 64 = Some recid /\
    to_bytes (byte_val recid + 27) 1 = Ok [byte_of_Z (byte_val recid + 27)] /\
    final_sig = (be_digits 32 (big_endian_to_int (firstn 32 raw))
                 ++ be_digits 32 (big_endian_to_int (firstn 32 (skipn 32 raw)))
                 ++ [byte_of_Z (byte_val recid + 27)])%list /\
    st' = {| self := self st; trace := (trace st ++ [EthGetBlock])%list |}.
Proof.
  unfold generate_signature, await, bind, lift, emit, get_self. simpl.
  destruct (eth_get_block (io E)) as [blk | e]; [| discriminate].
  destruct (int_base16 (number blk)) as [n | e] eqn:Hn; [| discriminate].
  fold (requested_slot E sl).
  set (rq := {| slotId := requested_slot E sl; deadline := _ |}).
  destruct (signable_bytes (lib E) rq) as [signable | e] eqn:Hs; [| discriminate].
  intro H.
  assert (exists key raw,
             signing_key (self st) pk = Ok key /\
             sign_recoverable (lib E) key signable = Ok raw /\
             match index_64 raw with
             | Ok recid =>
                 match to_bytes (big_endian_to_int (firstn 32 raw)) 32 with
                 | Ok r_bytes =>
                     match to_bytes (big_endian_to_int (firstn 32 (skipn 32 raw))) 32 with
                     | Ok s_bytes =>
                         match to_bytes (byte_val recid + 27) 1 with
                         | Ok v_bytes =>
                             (Ok (rq, (r_bytes ++ s_bytes ++ v_bytes)%list, hash blk),
                              {| self := self st;
                                 trace := (trace st ++ [EthGetBlock])%list |})
                         | Raise e => (Raise e, {| self := self st; trace := (trace st ++ [EthGetBlock])%list |})
                         end
                     | Raise e => (Raise e, {| self := self st; trace := (trace st ++ [EthGetBlock])%list |})
                     end
                 | Raise e => (Raise e, {| self := self st; trace := (trace st ++ [EthGetBlock])%list |})
                 end
             | Raise e => (Raise e, {| self := self st; trace := (trace st ++ [EthGetBlock])%list |})
             end = (Ok (req, final_sig, h), st')) as (key & raw & Hk & Hraw & H').
  { unfold signing_key.
    destruct pk as [k |]; [destruct (truthy k) |]; simpl in H.
    - destruct (from_hex _) as [key | e]; [| discriminate].
      destruct (sign_recoverable (lib E) key signable) as [raw | e] eqn:Hr;
        [| discriminate].
      exists key, raw. auto.
    - destruct (sign_recoverable (lib E) _ signable) as [raw | e] eqn:Hr;
        [| discriminate].
      eexists _, raw. auto.
    - destruct (sign_recoverable (lib E) _ signable) as [raw | e] eqn:Hr;
        [| discriminate].
      eexists _, raw. auto. }
  clear H. unfold index_64 in H'.
  destruct (nth_error raw 64) as [recid |] eqn:Hrec; [| discriminate].
  destruct (to_bytes (big_endian_to_int (firstn 32 raw)) 32) as [rb | e] eqn:Hrb;
    [| discriminate].
  destruct (to_bytes (big_endian_to_int (firstn 32 (skipn 32 raw))) 32)
    as [sb | e] eqn:Hsb; [| discriminate].
  destruct (to_bytes (byte_val recid + 27) 1) as [vb | e] eqn:Hvb; [| discriminate].
  injection H' as <- <- <- <-.
  apply to_bytes_Ok in Hrb as [_ ->]. apply to_bytes_Ok in Hsb as [_ ->].
  apply to_bytes_Ok in Hvb as [Hv ->].
  change (256 ^ Z.of_nat 1) with 256 in Hv.
  assert (Hone : be_digits 1 (byte_val recid + 27)
                 = [byte_of_Z (byte_val recid + 27)]).
  { cbn [be_digits app]. rewrite Z.mod_small; [trivial | lia]. }
  exists blk, n, signable, key, raw, recid.
  repeat match goal with |- _ /\ _ => split end; trivial.
  - unfold to_bytes. change (256 ^ Z.of_nat 1) with 256.
    destruct (byte_val recid + 27 <? 0) eqn:L; [lia |].
    destruct (256 <=? byte_val recid + 27) eqn:G; [lia |].
    simpl orb. cbv iota. now rewrite Hone.
  - now rewrite Hone.
Qed.

(** ** The commit, case by case *)

Lemma report_missed_snapshot_spec E what p ep e st :
  exists message,
    report_missed_snapshot E what p ep e st
    = (Ok tt,
       {| self := {| status :=
                       {| totalSuccessfulSubmissions :=
                            totalSuccessfulSubmissions (status (self st));
                          totalMissedSubmissions :=
                            totalMissedSubmissions (status (self st)) + 1;
                          consecutiveMissedSubmissions :=
                            consecutiveMissedSubmissions (status (self st)) + 1 |};
                     _private_key := _private_key (self st);
                     _identity_private_key := _identity_private_key (self st) |};
          trace := (trace st
                    ++ [Log ERROR what]
                    ++ [FailureNotification message])%list |}) /\
    issueType (snapshotterIssue message) = MISSED_SNAPSHOT.
Proof.
  eexists. split.
  - unfold report_missed_snapshot, send_failure_notifications_async, log, emit,
      bind, get_status, set_status. simpl. rewrite <- app_assoc. reflexivity.
  - reflexivity.
Qed.

Lemma record_success_spec st :
  record_success st
  = (Ok tt,
     {| self := {| status :=
                     {| totalSuccessfulSubmissions :=
                          totalSuccessfulSubmissions (status (self st)) + 1;
                        totalMissedSubmissions :=
                          totalMissedSubmissions (status (self st));
                        consecutiveMissedSubmissions := 0 |};
                   _private_key := _private_key (self st);
                   _identity_private_key := _identity_private_key (self st) |};
        trace := trace st |}).
Proof. reflexivity. Qed.

Lemma spawn_archival_spec flag b st :
  spawn_archival flag b st
  = (Ok tt, {| self := self st;
               trace := (trace st ++ if flag then [EnsureFuture b] else [])%list |}).
Proof.
  destruct flag; simpl; trivial.
  unfold ret. rewrite app_nil_r. now destruct st.
Qed.

(** [_commit_payload] unfolded along its three exits. *)
Lemma commit_payload_cases E t p ep snap flag st :
  _commit_payload E t p ep snap flag st =
  let b := encode_utf8 (dumps_canonical snap) in
  match upload_step E b st with
  | (Ok cid, st1) =>
      match _send_submission_to_collector E cid ep p None None st1 with
      | (Ok _, st2) =>
          (Ok cid, snd (spawn_archival flag b (snd (record_success st2))))
      | (Raise e, st2) =>
          if is_Exception e
          then (Ok cid,
                snd (spawn_archival flag b
                       (snd (report_missed_snapshot E SUBMISSION_FAILED p ep e st2))))
          else (Raise e, st2)
      end
  | (Raise e, st1) =>
      if is_Exception e
      then (Raise UnboundLocalError,
            snd (spawn_archival flag b
                   (snd (report_missed_snapshot E UPLOAD_FAILED p ep e st1))))
      else (Raise e, st1)
  end.
Proof.
  unfold _commit_payload. cbv zeta.
  set (b := encode_utf8 (dumps_canonical snap)).
  unfold bind, try_except_else.
  destruct (upload_step E b st) as [[cid | e] st1].
  - destruct (_send_submission_to_collector E cid ep p None None st1)
      as [[[] | e] st2].
    + now destruct flag.
    + destruct (is_Exception e); [| reflexivity]. now destruct flag.
  - destruct (is_Exception e); [| reflexivity]. now destruct flag.
Qed.

(** ** Claims *)

Lemma upload_step_local E bs st :
  truthy (ipfs_url (cfg E)) = false ->
  upload_step E bs st = (Ok (cid_sha256_hash (lib E) bs), st).
Proof. intro H. unfold upload_step. now rewrite H. Qed.

Lemma commit_local_returns E t p ep snap flag st :
  truthy (ipfs_url (cfg E)) = false ->
  returns_or_aborted
    (cid_sha256_hash (lib E) (encode_utf8 (dumps_canonical snap)))
    (fst (_commit_payload E t p ep snap flag st)).
Proof.
  intro H. rewrite commit_payload_cases. cbv zeta.
  rewrite upload_step_local by assumption.
  destruct (_send_submission_to_collector _ _ _ _ _ _ _) as [[[] | e] st2].
  - now left.
  - destruct (is_Exception e) eqn:He; [now left |].
    right. exists e. now split.
Qed.

(** C5.  Snapshots with the same logical content, whatever the insertion
    order of their fields, serialise to the same bytes.  With no storage
    backend configured the upload step is the local hash of these bytes: it
    returns the same content id every time and leaves the world untouched
    (not a single event, hence no network call), and either commit hands back
    that one id unless a cancellation aborts it. *)
Theorem canonical_bytes_give_identical_content_ids
  (E : env) (a b : json)
  (Hsame : same_content a b)
  (Hlocal : truthy (ipfs_url (cfg E)) = false) :
  let bytes_a := encode_utf8 (dumps_canonical a) in
  let bytes_b := encode_utf8 (dumps_canonical b) in
  let cid := cid_sha256_hash (lib E) bytes_a in
  bytes_a = bytes_b /\
  (forall st, upload_step E bytes_a st = (Ok cid, st)) /\
  (forall st, upload_step E bytes_b st = (Ok cid, st)) /\
  (forall t p ep flag st,
      returns_or_aborted cid (fst (_commit_payload E t p ep a flag st))) /\
  (forall t p ep flag st,
      returns_or_aborted cid (fst (_commit_payload E t p ep b flag st))).
Proof.
  cbv zeta.
  assert (Hb : encode_utf8 (dumps_canonical a) = encode_utf8 (dumps_canonical b))
    by (f_equal; now apply JsonFacts.same_content_dumps).
  repeat match goal with |- _ /\ _ => split end; trivial; intros.
  - now apply upload_step_local.
  - rewrite <- Hb. now apply upload_step_local.
  - now apply commit_local_returns.
  - rewrite Hb. now apply commit_local_returns.
Qed.

Lemma canonical_bytes_witness :
  let cid := "cid-7b2261223a312c2262223a5b2278222c6e756c6c5d7d" in
  encode_utf8 (dumps_canonical Sample.snap_ab)
  = encode_utf8 (dumps_canonical Sample.snap_ba) /\
  fst (_commit_payload (Sample.local_env Sample.calm) "task" "project" 5
         Sample.snap_ab false Sample.fresh) = Ok cid /\
  returns_or_aborted cid
    (fst (_commit_payload (Sample.local_env Sample.calm) "task" "project" 5
            Sample.snap_ba false Sample.fresh)).
Proof.
  assert (Hsame : same_content Sample.snap_ab Sample.snap_ba).
  { apply sc_dict.
    apply si_reorder_l with (xs' := [("b", JList [JStr "x"; JNull]); ("a", JInt 1)]).
    - repeat constructor; simpl; intuition discriminate.
    - apply perm_swap.
    - repeat constructor. }
  pose proof (canonical_bytes_give_identical_content_ids
                (Sample.local_env Sample.calm) _ _ Hsame eq_refl)
    as (H1 & _ & _ & _ & H5).
  split; [exact H1 | split; [reflexivity | apply H5]].
Defined.

Lemma count_snoc p tr ev :
  count p (tr ++ [ev]) = (count p tr + if p ev then 1 else 0)%nat.
Proof.
  unfold count. rewrite filter_snoc, length_app. now destruct (p ev).
Qed.

Lemma sleeps_app tr tr' : sleeps (tr ++ tr') = (sleeps tr ++ sleeps tr')%list.
Proof.
  induction tr as [| ev tr IH]; simpl; trivial.
  destruct ev; simpl; now rewrite ?IH.
Qed.

Lemma retry_unless_ipfs_error e :
  e <> IPFSAsyncClientError ->
  retry_if_not_exception_type IPFSAsyncClientError e = true.
Proof. destruct e; trivial. congruence. Qed.

Lemma retry_unless_http_status_error e :
  e <> HTTPStatusError ->
  retry_if_not_exception_type HTTPStatusError e = true.
Proof. destruct e; trivial. congruence. Qed.

(** The backoff window: base 1s doubling per attempt, capped at 10s. *)
Lemma random_exponential_window (u : Q) (n : nat) :
  (1 <= n)%nat ->
  wait_random_exponential 1 10 u n
  = (u * inject_Z (Z.min (2 ^ (Z.of_nat n - 1)) 10))%Q /\
  1 <= Z.min (2 ^ (Z.of_nat n - 1)) 10 <= 10 /\
  ((0 <= u)%Q -> (u < 1)%Q ->
   (0 <= wait_random_exponential 1 10 u n)%Q /\
   (wait_random_exponential 1 10 u n
    < inject_Z (Z.min (2 ^ (Z.of_nat n - 1)) 10))%Q) /\
  ((0 < u)%Q -> (0 < wait_random_exponential 1 10 u n)%Q).
Proof.
  intro Hn. unfold wait_random_exponential, wait_exponential.
  rewrite Z.mul_1_l.
  assert (Hp : 1 <= 2 ^ (Z.of_nat n - 1)).
  { pose proof (Z.pow_pos_nonneg 2 (Z.of_nat n - 1)). lia. }
  set (w := Z.min (2 ^ (Z.of_nat n - 1)) 10).
  assert (Hw : 1 <= w <= 10) by (unfold w; lia).
  rewrite Z.max_r by lia.
  assert (Hq : (0 < inject_Z w)%Q).
  { change 0%Q with (inject_Z 0). rewrite <- Zlt_Qlt. lia. }
  split; [reflexivity |]. split; [exact Hw |]. split.
  - intros H0 H1. split.
    + apply Qmult_le_0_compat; [assumption | now apply Qlt_le_weak].
    + rewrite <- (Qmult_1_l (inject_Z w)) at 2.
      now apply Qmult_lt_compat_r.
  - intro H0. now apply Qmult_lt_0_compat.
Qed.

Ltac run_attempts :=
  unfold retry, retrying, try_except_else, bind, await, emit, lift, raise, ret,
    log; simpl.

(** C4.  Both uploads run under the same policy, five attempts with a
    randomized exponential backoff, each with its own excluded class.  A
    backend that fails every time with a retryable error is called exactly
    five times before the failure ([RetryError]) reaches the caller, and the
    four sleeps in between are the four random draws scaled by the windows
    1s, 2s, 4s and 8s; an error of the excluded class on the first attempt
    is raised at once, after that single call and without a sleep.  Under
    either policy the sleep after the [n]-th attempt is the draw times the
    window [min (2 ^ (n - 1), 10)] seconds, which starts at 1s and is capped
    at 10s: for a draw in [0, 1) the sleep lies in [0, window). *)
Theorem upload_retry_bounds
  (E : env) (snapshot : bytes) (st : state) (e_ipfs e_web3 : exn)
  (Hipfs : e_ipfs <> IPFSAsyncClientError)
  (Hweb3 : e_web3 <> HTTPStatusError)
  (Htoken : truthy (web3storage_api_token (cfg E)) = true) :
  let u := random (io E) in
  let four_sleeps :=
    [(u 1%nat * 1)%Q; (u 2%nat * 2)%Q; (u 3%nat * 4)%Q; (u 4%nat * 8)%Q] in
  ((forall n, add_bytes (io E) n snapshot = Raise e_ipfs) ->
   let '(r, st') := _upload_to_ipfs E snapshot st in
   r = Raise RetryError /\
   count is_network_call (trace st') = (count is_network_call (trace st) + 5)%nat /\
   sleeps (trace st') = (sleeps (trace st) ++ four_sleeps)%list) /\
  (add_bytes (io E) 1 snapshot = Raise IPFSAsyncClientError ->
   _upload_to_ipfs E snapshot st
   = (Raise IPFSAsyncClientError,
      {| self := self st; trace := (trace st ++ [IpfsAddBytes snapshot])%list |})) /\
  ((forall n, web3_storage_post (io E) n snapshot = Raise e_web3) ->
   let '(r, st') := _upload_web3_storage E snapshot st in
   r = Raise RetryError /\
   count is_network_call (trace st') = (count is_network_call (trace st) + 5)%nat /\
   sleeps (trace st') = (sleeps (trace st) ++ four_sleeps)%list) /\
  (forall resp,
      web3_storage_post (io E) 1 snapshot = Ok resp ->
      raise_for_status resp = Raise HTTPStatusError ->
      _upload_web3_storage E snapshot st
      = (Raise HTTPStatusError,
         {| self := self st; trace := (trace st ++ [Web3StoragePost snapshot])%list |})) /\
  map (wait_exponential 1 10) [1; 2; 3; 4; 5; 6]%nat = [1; 2; 4; 8; 10; 10] /\
  (forall P, P = ipfs_policy \/ P = web3_storage_policy ->
     stop_after_attempt P = 5%nat /\
     forall (x : Q) (n : nat), (1 <= n)%nat ->
       let sleep := wait_random_exponential (wait_multiplier P) (wait_max P) x n in
       let window := Z.min (2 ^ (Z.of_nat n - 1)) 10 in
       sleep = (x * inject_Z window)%Q /\
       1 <= window <= 10 /\
       ((0 <= x)%Q -> (x < 1)%Q -> (0 <= sleep)%Q /\ (sleep < inject_Z window)%Q) /\
       ((0 < x)%Q -> (0 < sleep)%Q)).
Proof.
  cbv zeta.
  apply retry_unless_ipfs_error in Hipfs.
  apply retry_unless_http_status_error in Hweb3.
  repeat match goal with |- _ /\ _ => split end.
  - intro H. unfold _upload_to_ipfs. run_attempts.
    rewrite !H, Hipfs. simpl.
    rewrite !count_snoc, !sleeps_app. simpl.
    repeat split; [lia |].
    rewrite !app_nil_r, <- !app_assoc. reflexivity.
  - intro H. unfold _upload_to_ipfs. run_attempts. now rewrite H.
  - intro H. unfold _upload_web3_storage. run_attempts.
    rewrite Htoken. simpl. rewrite !H, Hweb3. simpl.
    rewrite !count_snoc, !sleeps_app. simpl.
    repeat split; [lia |].
    rewrite !app_nil_r, <- !app_assoc. reflexivity.
  - intros resp H1 H2. unfold _upload_web3_storage. run_attempts.
    rewrite Htoken. simpl. now rewrite H1, H2.
  - reflexivity.
  - intros P [-> | ->]; (split; [reflexivity |]); intros x n Hn;
      cbn [wait_multiplier wait_max ipfs_policy web3_storage_policy];
      apply (random_exponential_window x n Hn).
Qed.

Lemma upload_retry_bounds_witness :
  let E := Sample.ipfs_env (Sample.with_add_bytes (Raise TimeoutError) Sample.calm) in
  let '(r, st') := _upload_to_ipfs E [Byte.x7b; Byte.x7d] Sample.fresh in
  r = Raise RetryError /\
  count is_network_call (trace st') = 5%nat /\
  sleeps (trace st')
  = [((1 # 2) * 1)%Q; ((1 # 2) * 2)%Q; ((1 # 2) * 4)%Q; ((1 # 2) * 8)%Q].
Proof.
  exact (proj1 (upload_retry_bounds
                  (Sample.ipfs_env
                     (Sample.with_add_bytes (Raise TimeoutError) Sample.calm))
                  [Byte.x7b; Byte.x7d] Sample.fresh TimeoutError TimeoutError
                  ltac:(discriminate) ltac:(discriminate) eq_refl)
               (fun _ => eq_refl)).
Defined.

(** C6, as amended.  The deadline of a signed request is the block number
    read from the anchor chain plus the configured buffer; it lies strictly
    beyond that block exactly when the buffer is positive. *)
Theorem deadline_is_block_number_plus_buffer
  (E : env) (cid : string) (ep : Z) (pr : string)
  (sl : option Z) (pk : option string) (st st' : state)
  (req : EIPRequest) (final_sig : bytes) (h : string)
  (Hok : generate_signature E cid ep pr sl pk st = (Ok (req, final_sig, h), st')) :
  exists blk n,
    eth_get_block (io E) = Ok blk /\
    int_base16 (number blk) = Ok n /\
    h = hash blk /\
    deadline req = n + deadline_buffer (cfg E) /\
    (n < deadline req <-> 0 < deadline_buffer (cfg E)).
Proof.
  apply generate_signature_Ok in Hok
    as (blk & n & _ & _ & _ & _ & Hblk & Hn & Hh & -> & _).
  exists blk, n. simpl. repeat split; trivial; lia.
Qed.

Lemma deadline_witness :
  exists req final_sig h st',
    generate_signature (Sample.local_env Sample.calm) "cid" 5 "project" None None
      Sample.fresh = (Ok (req, final_sig, h), st') /\
    deadline req = 130 /\ h = "0xabc".
Proof.
  destruct (generate_signature (Sample.local_env Sample.calm) "cid" 5 "project"
              None None Sample.fresh) as [[[[req fs] h] | e] st'] eqn:Hg;
    [| discriminate Hg].
  destruct (deadline_is_block_number_plus_buffer _ _ _ _ _ _ _ _ _ _ _ Hg)
    as (blk & n & Hblk & Hn & Hh & Hd & _).
  exists req, fs, h, st'. split; [reflexivity |].
  injection Hblk as <-. injection Hn as <-. now split.
Defined.

(** C6 as stated fails: with a deadline buffer of 0 the call succeeds and the
    deadline is the block number itself. *)
Lemma deadline_not_beyond_block_with_zero_buffer :
  let E := {| cfg := Sample.config "2a" EmptyString 0;
              lib := Sample.toy_lib; io := Sample.calm |} in
  exists req final_sig st',
    generate_signature E "cid" 5 "project" None None Sample.fresh
    = (Ok (req, final_sig, "0xabc"), st') /\
    eth_get_block (io E) = Ok {| number := "0x64"; hash := "0xabc" |} /\
    int_base16 "0x64" = Ok 100 /\
    deadline req = 100 + deadline_buffer (cfg E) /\
    ~ (100 < deadline req).
Proof.
  cbv zeta.
  match goal with
  | |- context [generate_signature ?E ?c ?e ?p ?s ?k ?st] =>
      set (res := generate_signature E c e p s k st)
  end.
  vm_compute in res. subst res.
  eexists _, _, _. split; [reflexivity |].
  repeat split. simpl. lia.
Qed.

Lemma firstn_64_split {A} (l : list A) :
  firstn 64 l = (firstn 32 l ++ firstn 32 (skipn 32 l))%list.
Proof.
  rewrite <- (firstn_skipn 32 l) at 1.
  destruct (Nat.le_gt_cases 32 (List.length l)) as [H | H].
  - rewrite firstn_app, length_firstn, Nat.min_l by assumption.
    rewrite firstn_firstn. reflexivity.
  - rewrite (skipn_all2 l) by lia. rewrite app_nil_r, firstn_firstn.
    simpl. now rewrite app_nil_r.
Qed.

(** C7.  A successful call returns 65 bytes: the 32-byte big-endian [r],
    the 32-byte big-endian [s] - together the first 64 bytes of the
    library's signature - and one byte [v], the raw recovery id plus 27; a
    raw id of 0 or 1 gives 27 or 28. *)
Theorem signature_is_r_s_v
  (E : env) (cid : string) (ep : Z) (pr : string)
  (sl : option Z) (pk : option string) (st st' : state)
  (req : EIPRequest) (final_sig : bytes) (h : string)
  (Hok : generate_signature E cid ep pr sl pk st = (Ok (req, final_sig, h), st')) :
  exists key signable raw recid r s v,
    signing_key (self st) pk = Ok key /\
    sign_recoverable (lib E) key signable = Ok raw /\
    nth_error raw 64 = Some recid /\
    r = big_endian_to_int (firstn 32 raw) /\
    s = big_endian_to_int (firstn 32 (skipn 32 raw)) /\
    v = byte_val recid + 27 /\
    List.length final_sig = 65%nat /\
    final_sig = (be_digits 32 r ++ be_digits 32 s ++ [byte_of_Z v])%list /\
    to_bytes r 32 = Ok (firstn 32 final_sig) /\
    to_bytes s 32 = Ok (firstn 32 (skipn 32 final_sig)) /\
    to_bytes v 1 = Ok (skipn 64 final_sig) /\
    final_sig = (firstn 64 raw ++ [byte_of_Z v])%list /\
    byte_val (byte_of_Z v) = v /\
    (byte_val recid = 0 \/ byte_val recid = 1 -> v = 27 \/ v = 28).
Proof.
  apply generate_signature_Ok in Hok
    as (blk & n & signable & key & raw & recid & _ & _ & _ & _ & _
        & Hkey & Hraw & Hrec & Hv & -> & _).
  assert (Hlen : (65 <= List.length raw)%nat).
  { assert (64 < List.length raw)%nat by (apply nth_error_Some; congruence).
    lia. }
  assert (H1 : List.length (firstn 32 raw) = 32%nat)
    by (rewrite length_firstn; lia).
  assert (H2 : List.length (firstn 32 (skipn 32 raw)) = 32%nat)
    by (rewrite length_firstn, length_skipn; lia).
  pose proof (be_digits_big_endian_to_int (firstn 32 raw)) as R1.
  pose proof (be_digits_big_endian_to_int (firstn 32 (skipn 32 raw))) as R2.
  pose proof (to_bytes_of_bytes (firstn 32 raw)) as T1.
  pose proof (to_bytes_of_bytes (firstn 32 (skipn 32 raw))) as T2.
  rewrite H1 in R1, T1. rewrite H2 in R2, T2.
  assert (F1 : firstn 32 (firstn 32 raw) = firstn 32 raw)
    by (apply firstn_all2; lia).
  assert (F2 : firstn 32 (firstn 32 (skipn 32 raw)) = firstn 32 (skipn 32 raw))
    by (apply firstn_all2; lia).
  assert (S1 : skipn 32 (firstn 32 raw) = [])
    by (apply skipn_all2; lia).
  exists key, signable, raw, recid. do 3 eexists.
  repeat match goal with |- _ /\ _ => split end;
    try reflexivity; try eassumption.
  - rewrite R1, R2, firstn_app, H1, Nat.sub_diag, firstn_O, app_nil_r, F1.
    exact T1.
  - rewrite R1, R2, skipn_app, H1, Nat.sub_diag, skipn_O, S1, app_nil_l.
    rewrite firstn_app, H2, Nat.sub_diag, firstn_O, app_nil_r, F2.
    exact T2.
  - rewrite R1, R2, firstn_64_split, <- app_assoc. reflexivity.
  - apply to_bytes_Ok in Hv as [Hv _].
    change (256 ^ Z.of_nat 1) with 256 in Hv. apply byte_val_of_Z. lia.
  - lia.
Qed.

Lemma signature_witness :
  exists req final_sig h st',
    generate_signature (Sample.local_env Sample.calm) "cid" 5 "project" None None
      Sample.fresh = (Ok (req, final_sig, h), st') /\
    List.length final_sig = 65%nat /\
    option_map byte_val (nth_error final_sig 64) = Some 28.
Proof.
  destruct (generate_signature (Sample.local_env Sample.calm) "cid" 5 "project"
              None None Sample.fresh) as [[[[req fs] h] | e] st'] eqn:Hg;
    [| discriminate Hg].
  destruct (signature_is_r_s_v _ _ _ _ _ _ _ _ _ _ _ Hg)
    as (key & sb & raw & recid & r & s & v & _ & _ & _ & _ & _ & _ & Hl & _).
  exists req, fs, h, st'. split; [reflexivity |]. split; [exact Hl |].
  injection Hg as _ <- _ _. reflexivity.
Defined.

(** The override key is stripped of its prefix before it is parsed: both
    spellings sign alike. *)
Lemma override_key_prefix_is_stripped E cid ep pr sl k st :
  truthy k = true -> startswith_0x k = false ->
  generate_signature E cid ep pr sl (Some ("0x" ++ k)) st
  = generate_signature E cid ep pr sl (Some k) st.
Proof.
  intros Ht Hs. unfold generate_signature.
  assert (Hp : startswith_0x ("0x" ++ k) = true)
    by (unfold startswith_0x; simpl; now destruct k).
  change (truthy ("0x" ++ k)) with true.
  change (slice_from_2 ("0x" ++ k)) with k.
  now rewrite Hp, Ht, Hs.
Qed.

(** The identity key is parsed from the setting as configured, prefix
    included, and the parse fails on the [x]. *)
Lemma init_rejects_prefixed_identity_key E rest :
  signer_private_key (cfg E) = "0x" ++ rest ->
  _init_rpc_helper E = Raise ValueError.
Proof. intro H. unfold _init_rpc_helper, from_hex. now rewrite H. Qed.

(** C3, on the code.  The same key, 42, is configured once as [0x2a] and
    once as [2a].  As an override both spellings produce the same, successful
    signature, and it differs from the one made with the identity key.  As
    the process identity key only the bare spelling is accepted: with the
    prefix [_init_rpc_helper] raises [ValueError]. *)
Theorem identity_key_with_prefix_is_rejected :
  let prefixed := {| cfg := Sample.config "0x2a" EmptyString 30;
                     lib := Sample.toy_lib; io := Sample.calm |} in
  let bare := Sample.local_env Sample.calm in
  let sign pk st :=
    fst (generate_signature bare "cid" 5 "project" None pk st) in
  _init_rpc_helper prefixed = Raise ValueError /\
  (exists w, _init_rpc_helper bare = Ok w /\
             _identity_private_key w = {| secret := 42 |}) /\
  sign (Some "0x2b") Sample.fresh = sign (Some "2b") Sample.fresh /\
  (exists r, sign (Some "2b") Sample.fresh = Ok r /\
             sign None Sample.fresh <> Ok r).
Proof.
  cbv zeta. split; [reflexivity |]. split; [eexists; split; reflexivity |].
  split; [reflexivity |]. eexists. split; [reflexivity |].
  vm_compute. discriminate.
Qed.

Lemma ends_with_last2 (tr : list event) a b :
  ends_with [a; b] ((tr ++ [a]) ++ [b]).
Proof. exists tr. now rewrite <- !app_assoc. Qed.

Lemma ends_with_last3 (tr : list event) a b c :
  ends_with [a; b; c] (((tr ++ [a]) ++ [b]) ++ [c]).
Proof. exists tr. now rewrite <- !app_assoc. Qed.

Ltac run_stream :=
  unfold _send_msg_with_closure, async_with, try_except_else, bind, await,
    emit, lift, log, ret; simpl.

(** A transport failure of the stream: one cancel attempt under the 10s
    bound, whose own failure is logged and absorbed. *)
Lemma transport_failure_cancels_stream E msg sim st e :
  stream_open (io E) = Ok tt ->
  e = ConnectionResetError \/ e = GRPCError ->
  send_message (io E) msg = Raise e \/
  (send_message (io E) msg = Ok tt /\ recv_message (io E) = Raise e) ->
  swallowed (stream_cancel (io E)) ->
  let '(r, st') := _send_msg_with_closure E msg sim st in
  r = stream_close (io E) /\
  self st' = self st /\
  filter is_stream_cancel (trace st')
  = (filter is_stream_cancel (trace st) ++ [StreamCancel 10])%list /\
  match stream_cancel (io E) with
  | Ok _ => ends_with [StreamCancel 10; StreamClose] (trace st')
  | Raise _ =>
      exists lvl text,
        ends_with [StreamCancel 10; Log lvl text; StreamClose] (trace st')
  end.
Proof.
  intros Hopen He Hfail Hsw. run_stream. rewrite Hopen. simpl.
  destruct Hfail as [Hs | [Hs Hr]]; rewrite Hs; simpl; [| rewrite Hr; simpl];
    destruct He as [-> | ->]; simpl;
    destruct (stream_cancel (io E)) as [[] | e'] eqn:Hc; simpl;
    try (destruct e'; simpl in Hsw |- *;
         try (destruct Hsw as [Hsw | Hsw]; discriminate Hsw));
    match goal with
    | |- context [stream_close (io E)] =>
        destruct (stream_close (io E)) as [[] | ?]; simpl
    end;
    (split; [reflexivity |]); (split; [reflexivity |]);
    rewrite !filter_snoc; simpl; rewrite ?app_nil_r;
    (split; [reflexivity |]);
    try (do 2 eexists);
    first [apply ends_with_last3 | apply ends_with_last2].
Qed.

(** A cancellation while sending or receiving is logged and absorbed. *)
Lemma cancellation_is_logged_and_absorbed E msg sim st :
  stream_open (io E) = Ok tt ->
  send_message (io E) msg = Raise CancelledError \/
  (send_message (io E) msg = Ok tt /\ recv_message (io E) = Raise CancelledError) ->
  let '(r, st') := _send_msg_with_closure E msg sim st in
  r = stream_close (io E) /\
  self st' = self st /\
  filter is_stream_cancel (trace st') = filter is_stream_cancel (trace st) /\
  ends_with
    [Log INFO "Task to send snapshot to local collector was asyncio cancelled!";
     StreamClose] (trace st').
Proof.
  intros Hopen Hfail. run_stream. rewrite Hopen. simpl.
  destruct Hfail as [Hs | [Hs Hr]]; rewrite Hs; simpl; [| rewrite Hr; simpl];
    destruct (stream_close (io E)) as [[] | ?]; simpl;
    rewrite !filter_snoc; simpl; rewrite ?app_nil_r;
    repeat split; apply ends_with_last2.
Qed.

(** Only an [Exception] raised by the submission step is accounted as a
    miss: when the step returns, or is cancelled, no report is sent and the
    miss counters do not grow. *)
Lemma no_miss_without_submission_exception E t p ep snap flag st cid st1 o st2 :
  upload_step E (encode_utf8 (dumps_canonical snap)) st = (Ok cid, st1) ->
  _send_submission_to_collector E cid ep p None None st1 = (o, st2) ->
  o = Ok tt \/ o = Raise CancelledError ->
  let st' := snd (_commit_payload E t p ep snap flag st) in
  count is_notification (trace st') = count is_notification (trace st) /\
  totalMissedSubmissions (status (self st'))
  = totalMissedSubmissions (status (self st)) /\
  (consecutiveMissedSubmissions (status (self st')) = 0 \/
   consecutiveMissedSubmissions (status (self st'))
   = consecutiveMissedSubmissions (status (self st))).
Proof.
  intros Hup Hsub Ho. cbv zeta.
  destruct (preserves_upload_step is_notification E
              (encode_utf8 (dumps_canonical snap))
              ignores_uploads_notification st) as [U1 U2].
  destruct (preserves_send_submission_to_collector is_notification E cid ep p
              None None ignores_submission_notification st1) as [S1 S2].
  rewrite Hup in U1, U2. rewrite Hsub in S1, S2. simpl in *.
  rewrite commit_payload_cases. cbv zeta. rewrite Hup, Hsub.
  destruct Ho as [-> | ->]; simpl.
  - unfold count. destruct flag; simpl;
      rewrite ?filter_snoc, ?app_nil_r; simpl; rewrite ?app_nil_r;
      rewrite S1, U1, S2, U2; auto.
  - unfold count. rewrite S1, U1, S2, U2. auto.
Qed.

(** ** Accounting over a run of commits *)

Lemma misses_accumulate cs st :
  all_missed cs st ->
  let s := status (self st) in
  let s' := status (self (run_commits cs st)) in
  let n := Z.of_nat (List.length cs) in
  totalMissedSubmissions s' = totalMissedSubmissions s + n /\
  consecutiveMissedSubmissions s' = consecutiveMissedSubmissions s + n /\
  totalSuccessfulSubmissions s' = totalSuccessfulSubmissions s /\
  count is_notification (trace (run_commits cs st))
  = (count is_notification (trace st) + List.length cs)%nat.
Proof.
  revert st. induction cs as [| c cs IH]; intros st H; cbv zeta.
  - simpl. repeat split; lia.
  - destruct H as [Hc Hrest]. specialize (IH _ Hrest). cbv zeta in IH.
    destruct IH as (I1 & I2 & I3 & I4).
    cbn [run_commits List.length]. rewrite I1, I2, I3, I4, Nat2Z.inj_succ.
    assert (Hm : missed_update (status (self st))
                   (status (self (snd (run_commit c st)))) /\
                 count is_notification (trace (snd (run_commit c st)))
                 = S (count is_notification (trace st))).
    { destruct Hc as [Hc | Hc]; unfold records in Hc; tauto. }
    destruct Hm as [(M1 & M2 & M3) M4]. rewrite M1, M2, M3, M4.
    repeat split; lia.
Qed.

(** What the counters hold after [N] recorded misses in a row followed by
    one recorded success. *)
Lemma success_after_misses cs c st :
  all_missed cs st ->
  let st1 := run_commits cs st in
  records Success st1 (fst (run_commit c st1)) (snd (run_commit c st1)) ->
  let s := status (self st) in
  let s' := status (self (run_commits (cs ++ [c]) st)) in
  consecutiveMissedSubmissions s' = 0 /\
  totalMissedSubmissions s'
  = totalMissedSubmissions s + Z.of_nat (List.length cs) /\
  totalSuccessfulSubmissions s' = totalSuccessfulSubmissions s + 1.
Proof.
  intros Hall st1 Hs. cbv zeta.
  assert (Hrun : run_commits (cs ++ [c]) st = snd (run_commit c st1)).
  { subst st1. clear. revert st.
    induction cs as [| c' cs IH]; intro st; simpl; trivial. }
  rewrite Hrun.
  destruct (misses_accumulate cs st Hall) as (M1 & _ & M3 & _).
  destruct Hs as (_ & (S1 & S2 & S3) & _). fold st1 in M1, M3.
  rewrite S1, S2, S3, M1, M3. auto.
Qed.

(** Any [Exception] that leaves the submission step was raised while the
    request was being signed; whatever the stream raises stays inside. *)
Lemma collector_errors_never_leave_the_submission E cid ep p sl pk st e :
  fst (_send_submission_to_collector E cid ep p sl pk st) = Raise e ->
  is_Exception e = true ->
  fst (generate_signature E cid ep p sl pk
         (snd (log DEBUG "Sending submission to collector..." st))) = Raise e.
Proof.
  unfold _send_submission_to_collector, bind at 1.
  unfold log at 1, emit at 1. unfold bind at 1. cbn [snd log emit].
  destruct (generate_signature _ _ _ _ _ _ _) as [[[[req sig] h] | e'] st1];
    [| simpl; intros [= <-] _; reflexivity].
  unfold bind, try_except_else, log, emit. simpl.
  destruct (_send_msg_with_closure _ _ _ _) as [[[] | e2] st2]; simpl;
    [discriminate |].
  destruct e2; simpl; try discriminate; intros [= <-]; discriminate.
Qed.

(** C1, on the code.  After a successful upload the collector stream resets
    while the message is sent (and likewise when the send times out).  The
    failure is logged, the stream is cancelled - and the commit counts a
    success: no MISSED_SNAPSHOT report, both miss counters unchanged.  Two
    such commits followed by a delivered one leave the worker with three
    successes and no miss. *)
Theorem stream_failure_is_counted_as_success :
  let '(r, st') := run_commit (Sample.call Scenario.reset_env) Sample.fresh in
  let '(r2, st2) := run_commit (Sample.call Scenario.send_timeout_env) Sample.fresh in
  r = Ok "cid-7b2261223a317d" /\
  In (Log ERROR "Probable grpc failure to send snapshot") (trace st') /\
  In (StreamCancel 10) (trace st') /\
  notifications (trace st') = [] /\
  status (self st') = {| totalSuccessfulSubmissions := 1;
                         totalMissedSubmissions := 0;
                         consecutiveMissedSubmissions := 0 |} /\
  In (Log ERROR "Probable failure to send snapshot") (trace st2) /\
  notifications (trace st2) = [] /\
  status (self st2) = status (self st') /\
  status (self (run_commits [Sample.call Scenario.reset_env;
                             Sample.call Scenario.send_timeout_env;
                             Sample.call (Sample.local_env Sample.calm)]
                  Sample.fresh))
  = {| totalSuccessfulSubmissions := 3;
       totalMissedSubmissions := 0;
       consecutiveMissedSubmissions := 0 |}.
Proof. vm_compute. intuition. Qed.

(** The accounting the commit does implement: an [Exception] while the
    request is signed (here the anchor-chain RPC is down) is a miss, and a
    delivered commit afterwards resets the consecutive counter. *)
Lemma signing_failures_are_accounted :
  let failing := Sample.call Scenario.rpc_down_env in
  let delivered := Sample.call (Sample.local_env Sample.calm) in
  let st' := run_commits [failing; failing; failing] Sample.fresh in
  let st'' := run_commits [delivered] st' in
  status (self st') = {| totalSuccessfulSubmissions := 0;
                         totalMissedSubmissions := 3;
                         consecutiveMissedSubmissions := 3 |} /\
  List.length (notifications (trace st')) = 3%nat /\
  status (self st'') = {| totalSuccessfulSubmissions := 1;
                          totalMissedSubmissions := 3;
                          consecutiveMissedSubmissions := 0 |}.
Proof. vm_compute. intuition. Qed.

Lemma success_after_misses_witness :
  let failing := Sample.call Scenario.rpc_down_env in
  let delivered := Sample.call (Sample.local_env Sample.calm) in
  let s' := status (self (run_commits ([failing; failing; failing] ++ [delivered])
                            Sample.fresh)) in
  consecutiveMissedSubmissions s' = 0 /\
  totalMissedSubmissions s' = 3 /\
  totalSuccessfulSubmissions s' = 1.
Proof.
  apply (success_after_misses
           [Sample.call Scenario.rpc_down_env; Sample.call Scenario.rpc_down_env;
            Sample.call Scenario.rpc_down_env]
           (Sample.call (Sample.local_env Sample.calm)) Sample.fresh).
  - vm_compute. intuition eauto.
  - vm_compute. intuition eauto.
Defined.

(** C2, on the code.  The IPFS upload fails with the permanent error class:
    one call to the backend, no submission step, one MISSED_SNAPSHOT report,
    both miss counters up by one - and then the final [return snapshot_cid]
    reads a local that was never bound, so the commit raises
    [UnboundLocalError] instead of returning. *)
Theorem failed_upload_raises_UnboundLocalError :
  let '(r, st') := run_commit (Sample.call Scenario.ipfs_rejects_env) Sample.fresh in
  r = Raise UnboundLocalError /\
  count is_network_call (trace st') = 1%nat /\
  count is_submission_event (trace st') = 0%nat /\
  List.length (notifications (trace st')) = 1%nat /\
  status (self st') = {| totalSuccessfulSubmissions := 0;
                         totalMissedSubmissions := 1;
                         consecutiveMissedSubmissions := 1 |}.
Proof. vm_compute. intuition. Qed.

(** The same holds for every failed upload. *)
Lemma failed_upload_never_returns E t p ep snap flag st e st1 :
  upload_step E (encode_utf8 (dumps_canonical snap)) st = (Raise e, st1) ->
  is_Exception e = true ->
  let '(r, st') := _commit_payload E t p ep snap flag st in
  r = Raise UnboundLocalError /\
  missed_update (status (self st)) (status (self st')) /\
  count is_notification (trace st') = (count is_notification (trace st) + 1)%nat /\
  count is_submission_event (trace st') = count is_submission_event (trace st).
Proof.
  intros Hup He.
  destruct (preserves_upload_step is_notification E
              (encode_utf8 (dumps_canonical snap))
              ignores_uploads_notification st) as [U1 U2].
  destruct (preserves_upload_step is_submission_event E
              (encode_utf8 (dumps_canonical snap))
              ignores_uploads_submission st) as [_ U3].
  rewrite Hup in U1, U2, U3. simpl in U1, U2, U3.
  rewrite commit_payload_cases. cbv zeta. rewrite Hup, He.
  unfold missed_update, count.
  destruct flag; simpl; rewrite ?filter_snoc; simpl;
    rewrite ?app_nil_r, ?length_app, U1, U2, U3; simpl; repeat split; lia.
Qed.

Lemma records_unique o1 o2 st r st' :
  records o1 st r st' -> records o2 st r st' -> o1 = o2.
Proof.
  unfold records, missed_update, success_update.
  destruct o1, o2; trivial; intros H1 H2; exfalso;
    repeat match goal with
           | H : _ /\ _ |- _ => destruct H
           | H : exists _, _ |- _ => destruct H
           end; subst; try discriminate; try lia;
    try match goal with
        | H : Raise _ = Raise _ |- _ => injection H as <-; discriminate
        end;
    try match goal with
        | H : status (self st') = status (self st) |- _ => rewrite H in *; lia
        end.
Qed.

(** C10, as amended.  A commit ends in exactly one of four ways: a failed
    upload or a failed submission (both miss counters up by one, one report
    sent), a success (one more success, consecutive misses back to 0, no
    report), or - when an exception outside [Exception], such as a
    cancellation, aborts it - with the counters untouched and no report.
    At most one report is sent. *)
Theorem commit_records_exactly_one_outcome
  (E : env) (t p : string) (ep : Z) (snap : json) (flag : bool) (st : state) :
  let '(r, st') := _commit_payload E t p ep snap flag st in
  (exists o, records o st r st' /\
             forall o', records o' st r st' -> o' = o) /\
  (count is_notification (trace st') <= S (count is_notification (trace st)))%nat.
Proof.
  destruct (_commit_payload E t p ep snap flag st) as [r st'] eqn:Hc.
  assert (Hex : exists o, records o st r st').
  { rewrite commit_payload_cases in Hc. cbv zeta in Hc.
    set (b := encode_utf8 (dumps_canonical snap)) in *.
    destruct (preserves_upload_step is_notification E b
                ignores_uploads_notification st) as [U1 U2].
    destruct (upload_step E b st) as [[cid | e] st1]; simpl in U1, U2.
    - destruct (preserves_send_submission_to_collector is_notification E cid
                  ep p None None ignores_submission_notification st1)
        as [S1 S2].
      destruct (_send_submission_to_collector E cid ep p None None st1)
        as [[[] | e] st2]; simpl in S1, S2.
      + exists Success. injection Hc as <- <-.
        unfold records, success_update, count.
        destruct flag; simpl; rewrite ?filter_snoc; simpl;
          rewrite ?app_nil_r, S1, U1, S2, U2; eauto 6.
      + destruct (is_Exception e) eqn:He; injection Hc as <- <-.
        * exists SubmissionFailure.
          unfold records, missed_update, count.
          destruct flag; simpl; rewrite ?filter_snoc; simpl;
            rewrite ?app_nil_r, ?length_app, S1, U1, S2, U2; simpl;
            (split; [eauto |]); split; trivial; lia.
        * exists Aborted. unfold records, count.
          rewrite S1, U1, S2, U2. eauto 6.
    - destruct (is_Exception e) eqn:He; injection Hc as <- <-.
      + exists UploadFailure.
        unfold records, missed_update, count.
        destruct flag; simpl; rewrite ?filter_snoc; simpl;
          rewrite ?app_nil_r, ?length_app, U1, U2; simpl;
          (split; [trivial |]); split; trivial; lia.
      + exists Aborted. unfold records, count. rewrite U1, U2. eauto 6. }
  destruct Hex as [o Ho]. split.
  - exists o. split; [assumption |].
    intros o' Ho'. eapply records_unique; eassumption.
  - unfold records in Ho. destruct o; cbv zeta in Ho;
      decompose [and] Ho; lia.
Qed.

(** C10 as stated fails: a commit cancelled while the block is fetched
    raises [CancelledError] and applies none of the three updates. *)
Lemma cancelled_commit_records_nothing :
  let '(r, st') := run_commit (Sample.call Scenario.cancelled_env) Sample.fresh in
  let s := status (self Sample.fresh) in
  let s' := status (self st') in
  r = Raise CancelledError /\
  s' = s /\
  ~ missed_update s s' /\
  ~ success_update s s' /\
  count is_notification (trace st') = 0%nat.
Proof.
  vm_compute. repeat split; try (intros (H & _); discriminate H).
Qed.



(** * Further properties of the worker *)

(** ** The retry loop in general *)

Lemma count_app p tr tr' :
  count p (tr ++ tr') = (count p tr + count p tr')%nat.
Proof. unfold count. now rewrite filter_app, length_app. Qed.

Lemma not_retried_ipfs e :
  retry_if ipfs_policy e = false -> e = IPFSAsyncClientError.
Proof. destruct e; simpl; try discriminate; trivial. Qed.

Lemma not_retried_web3 e :
  retry_if web3_storage_policy e = false -> e = HTTPStatusError.
Proof. destruct e; simpl; try discriminate; trivial. Qed.

Lemma retried_ipfs e :
  retry_if ipfs_policy e = true -> e <> IPFSAsyncClientError.
Proof. intros H ->. discriminate H. Qed.

Lemma retried_web3 e :
  retry_if web3_storage_policy e = true -> e <> HTTPStatusError.
Proof. intros H ->. discriminate H. Qed.

Section Retrying.
Context {A : Type}.
Variables (E : env) (P : retry_policy) (fn : nat -> M A).
Variables (p : event -> bool) (answer : nat -> outcome A).

Hypothesis attempt :
  forall n st, exists extra,
    fn n st = (answer n, {| self := self st;
                            trace := (trace st ++ extra)%list |}) /\
    count p extra = 1%nat /\ sleeps extra = [].
Hypothesis callback :
  forall b st, exists extra,
    after P b st = (Ok tt, {| self := self st;
                              trace := (trace st ++ extra)%list |}) /\
    count p extra = 0%nat /\ sleeps extra = [].
Hypothesis sleep_not_counted : forall q, p (Sleep q) = false.

Lemma retrying_spec remaining n st :
  exists k,
    (1 <= k <= S remaining)%nat /\
    self (snd (retrying E P remaining n fn st)) = self st /\
    count p (trace (snd (retrying E P remaining n fn st)))
    = (count p (trace st) + k)%nat /\
    List.length (sleeps (trace (snd (retrying E P remaining n fn st))))
    = (List.length (sleeps (trace st)) + (k - 1))%nat /\
    (forall j, (j < k - 1)%nat ->
               exists e, answer (n + j) = Raise e /\ retry_if P e = true) /\
    match fst (retrying E P remaining n fn st) with
    | Ok a => answer (n + (k - 1)) = Ok a
    | Raise e =>
        (answer (n + (k - 1)) = Raise e /\ retry_if P e = false) \/
        (e = RetryError /\ k = S remaining /\
         exists e', answer (n + (k - 1)) = Raise e' /\ retry_if P e' = true)
    end.
Proof.
  revert n st. induction remaining as [| r IH]; intros n st;
    destruct (retrying E P _ n fn st) as [res st'] eqn:Hres;
    cbn [fst snd]; cbn [retrying] in Hres; unfold try_except_else in Hres;
    destruct (attempt n st) as (extra & Hfn & Hc & Hs); rewrite Hfn in Hres;
    destruct (answer n) as [a | e] eqn:Ha;
    try destruct (retry_if P e) eqn:Hr;
    unfold bind in Hres;
    try match type of Hres with
        | context [after P true ?s] =>
            destruct (callback true s) as (extra' & Hcb & Hc' & Hs');
            rewrite Hcb in Hres
        end;
    unfold ret, raise, emit in Hres; cbn [self trace] in Hres.
  1-3, 4, 6: injection Hres as <- <-; exists 1%nat;
    change (1 - 1)%nat with 0%nat; cbn [self trace];
    rewrite !count_app, !sleeps_app, ?Hc, ?Hs, ?Hc', ?Hs', !app_nil_r,
      ?Nat.add_0_r, ?Ha;
    repeat split; try lia; try (intros j Hj; lia); auto.
  - right. repeat split. now exists e.
  - match type of Hres with
    | retrying E P r (S n) fn ?s = _ => set (s0 := s) in *
    end.
    assert (C0 : count p (trace s0) = S (count p (trace st))).
    { subst s0. cbn [trace].
      rewrite count_snoc, sleep_not_counted, !count_app, Hc, Hc'. lia. }
    assert (S0 : List.length (sleeps (trace s0))
                 = S (List.length (sleeps (trace st)))).
    { subst s0. cbn [trace].
      rewrite !sleeps_app, Hs, Hs', !app_nil_r, length_app. simpl. lia. }
    destruct (IH (S n) s0) as (k & Hk & I1 & I2 & I3 & I4 & I5).
    rewrite Hres in I1, I2, I3, I5. cbn [fst snd] in I1, I2, I3, I5.
    rewrite C0 in I2. rewrite S0 in I3.
    replace (self s0) with (self st) in I1 by reflexivity.
    exists (S k). rewrite I1, I2, I3.
    repeat split; try lia.
    + intros j Hj. destruct j as [| j].
      * exists e. now rewrite Nat.add_0_r.
      * destruct (I4 j ltac:(lia)) as (e' & He' & Hr').
        exists e'. now rewrite <- Nat.add_succ_comm.
    + replace (n + (S k - 1))%nat with (S n + (k - 1))%nat by lia.
      destruct res; trivial.
      destruct I5 as [I5 | (-> & -> & I5)]; [now left |].
      right. repeat split. exact I5.
Qed.
End Retrying.

Lemma ipfs_callback_quiet b st :
  exists extra,
    after ipfs_policy b st
    = (Ok tt, {| self := self st; trace := (trace st ++ extra)%list |}) /\
    count is_network_call extra = 0%nat /\ sleeps extra = [].
Proof.
  destruct b; simpl.
  - now exists [Log WARNING "Encountered ipfs upload exception"].
  - exists []. unfold ret. rewrite app_nil_r. now destruct st.
Qed.

Lemma web3_callback_quiet b st :
  exists extra,
    after web3_storage_policy b st
    = (Ok tt, {| self := self st; trace := (trace st ++ extra)%list |}) /\
    count is_network_call extra = 0%nat /\ sleeps extra = [].
Proof.
  destruct b; simpl.
  - now exists [Log WARNING "Encountered web3 storage upload exception"].
  - exists []. unfold ret. rewrite app_nil_r. now destruct st.
Qed.

(** X1.  Whatever the IPFS backend answers, [_upload_to_ipfs] calls it [k]
    times with [1 <= k <= 5], sleeping once between two calls and leaving
    the worker alone.  The calls before the last all failed with a retryable
    error.  It returns exactly the content id of the last call, re-raises a
    client error of the last call at once, and raises [RetryError] only
    after five failed calls. *)
Theorem upload_to_ipfs_attempts
  (E : env) (snapshot : bytes) (st : state) :
  let '(r, st') := _upload_to_ipfs E snapshot st in
  exists k,
    (1 <= k <= 5)%nat /\
    self st' = self st /\
    count is_network_call (trace st') = (count is_network_call (trace st) + k)%nat /\
    List.length (sleeps (trace st'))
    = (List.length (sleeps (trace st)) + (k - 1))%nat /\
    (forall j, (1 <= j < k)%nat ->
               exists e, add_bytes (io E) j snapshot = Raise e /\
                         e <> IPFSAsyncClientError) /\
    match r with
    | Ok cid => add_bytes (io E) k snapshot = Ok cid
    | Raise e =>
        (e = IPFSAsyncClientError /\ add_bytes (io E) k snapshot = Raise e) \/
        (e = RetryError /\ k = 5%nat /\
         exists e', add_bytes (io E) 5 snapshot = Raise e' /\
                    e' <> IPFSAsyncClientError)
    end.
Proof.
  destruct (_upload_to_ipfs E snapshot st) as [r st'] eqn:Hrun.
  unfold _upload_to_ipfs, retry in Hrun. cbn [stop_after_attempt ipfs_policy] in Hrun.
  change (5 - 1)%nat with 4%nat in Hrun.
  match type of Hrun with
  | retrying E ipfs_policy 4 1 ?fn st = _ =>
      destruct (retrying_spec E ipfs_policy fn is_network_call
                  (fun n => add_bytes (io E) n snapshot)) with
        (remaining := 4%nat) (n := 1%nat) (st := st)
        as (k & Hk & H1 & H2 & H3 & H4 & H5)
  end.
  - intros n s. exists [IpfsAddBytes snapshot].
    unfold bind, await, emit, lift, ret. simpl.
    destruct (add_bytes (io E) n snapshot); now repeat split.
  - apply ipfs_callback_quiet.
  - reflexivity.
  - rewrite Hrun in H1, H2, H3, H5. cbn [fst snd] in H1, H2, H3, H5.
    exists k. repeat split; try lia; trivial.
    + intros j Hj. destruct (H4 (j - 1)%nat ltac:(lia)) as (e & He & Hr).
      replace (1 + (j - 1))%nat with j in He by lia.
      exists e. split; [assumption | now apply retried_ipfs].
    + replace (1 + (k - 1))%nat with k in H5 by lia.
      destruct r as [cid | e]; trivial.
      destruct H5 as [[H5 Hr] | (-> & Hk5 & e' & He' & Hr')].
      * left. apply not_retried_ipfs in Hr. now subst.
      * right. subst k. repeat split.
        exists e'. split; [assumption | now apply retried_ipfs].
Qed.

(** X2.  Without an API token [_upload_web3_storage] returns at once and
    touches nothing.  With a token it POSTs [k] times, [1 <= k <= 5], with
    one sleep between two POSTs; it returns only when a POST was answered,
    passed [raise_for_status] and carried a JSON body, re-raises an
    [HTTPStatusError] at once, and otherwise gives up with [RetryError]
    after the fifth POST - so an upload that was accepted but answered with
    a body that is not JSON is posted five times. *)
Theorem upload_web3_storage_attempts
  (E : env) (snapshot : bytes) (st : state) :
  (truthy (web3storage_api_token (cfg E)) = false ->
   _upload_web3_storage E snapshot st = (Ok tt, st)) /\
  (truthy (web3storage_api_token (cfg E)) = true ->
   let '(r, st') := _upload_web3_storage E snapshot st in
   exists k,
     (1 <= k <= 5)%nat /\
     self st' = self st /\
     count is_network_call (trace st')
     = (count is_network_call (trace st) + k)%nat /\
     List.length (sleeps (trace st'))
     = (List.length (sleeps (trace st)) + (k - 1))%nat /\
     (forall j, (1 <= j < k)%nat ->
                exists e, web3_attempt E snapshot j = Raise e /\
                          e <> HTTPStatusError) /\
     match r with
     | Ok _ => web3_attempt E snapshot k = Ok tt
     | Raise e =>
         (e = HTTPStatusError /\ web3_attempt E snapshot k = Raise e) \/
         (e = RetryError /\ k = 5%nat)
     end /\
     ((forall n, exists resp e,
          web3_storage_post (io E) n snapshot = Ok resp /\
          raise_for_status resp = Ok tt /\
          json_body resp = Raise e /\ e <> HTTPStatusError) ->
      r = Raise RetryError /\ k = 5%nat)).
Proof.
  split; intro Htoken.
  - unfold _upload_web3_storage, retry. cbn [retrying stop_after_attempt
      web3_storage_policy Nat.sub]. unfold try_except_else.
    now rewrite Htoken.
  - destruct (_upload_web3_storage E snapshot st) as [r st'] eqn:Hrun.
    unfold _upload_web3_storage, retry in Hrun.
    cbn [stop_after_attempt web3_storage_policy] in Hrun.
    change (5 - 1)%nat with 4%nat in Hrun. rewrite Htoken in Hrun.
    cbn [negb] in Hrun.
    match type of Hrun with
    | retrying E web3_storage_policy 4 1 ?fn st = _ =>
        destruct (retrying_spec E web3_storage_policy fn is_network_call
                    (web3_attempt E snapshot)) with
          (remaining := 4%nat) (n := 1%nat) (st := st)
          as (k & Hk & H1 & H2 & H3 & H4 & H5)
    end.
    + intros n s. unfold web3_attempt, bind, await, emit, lift, log. simpl.
      destruct (web3_storage_post (io E) n snapshot) as [resp | e];
        [| exists [Web3StoragePost snapshot]; now repeat split].
      destruct (raise_for_status resp) as [[] | e];
        [| exists [Web3StoragePost snapshot]; now repeat split].
      destruct (json_body resp) as [body | e];
        [| exists [Web3StoragePost snapshot]; now repeat split].
      exists [Web3StoragePost snapshot;
              Log INFO "Uploaded snapshot to web3 storage"].
      unfold emit. cbn [self trace]. rewrite <- app_assoc. now repeat split.
    + apply web3_callback_quiet.
    + reflexivity.
    + rewrite Hrun in H1, H2, H3, H5. cbn [fst snd] in H1, H2, H3, H5.
      replace (1 + (k - 1))%nat with k in H5 by lia.
      exists k. repeat split; try lia; trivial.
      * intros j Hj. destruct (H4 (j - 1)%nat ltac:(lia)) as (e & He & Hr).
        replace (1 + (j - 1))%nat with j in He by lia.
        exists e. split; [assumption | now apply retried_web3].
      * destruct r as [[] | e]; trivial.
        destruct H5 as [[H5 Hr] | (-> & Hk5 & _)].
        -- left. apply not_retried_web3 in Hr. now subst.
        -- right. now subst k.
      * assert (Hall : forall n, exists e, web3_attempt E snapshot n = Raise e /\
                                           e <> HTTPStatusError).
        { intro n.
          match goal with H : forall n, exists _ _, _ |- _ =>
            destruct (H n) as (resp & e & Hp & Hs & Hj & Hne) end.
          exists e. unfold web3_attempt. now rewrite Hp, Hs, Hj. }
        destruct (Hall k) as (e & He & Hne).
        destruct r as [[] | e0]; [congruence |].
        destruct H5 as [[H5 Hr] | (-> & Hk5 & _)]; trivial.
        apply not_retried_web3 in Hr. congruence.
      * assert (Hall : forall n, exists e, web3_attempt E snapshot n = Raise e /\
                                           e <> HTTPStatusError).
        { intro n.
          match goal with H : forall n, exists _ _, _ |- _ =>
            destruct (H n) as (resp & e & Hp & Hs & Hj & Hne) end.
          exists e. unfold web3_attempt. now rewrite Hp, Hs, Hj. }
        destruct (Hall k) as (e & He & Hne).
        destruct r as [[] | e0]; [congruence |].
        destruct H5 as [[H5 Hr] | (-> & Hk5 & _)]; [| assumption].
        apply not_retried_web3 in Hr. congruence.
Qed.

Lemma upload_web3_storage_witness :
  exists k,
    (1 <= k <= 5)%nat /\
    count is_network_call
      (trace (snd (_upload_web3_storage (Sample.local_env Sample.calm)
                     [Byte.x7b; Byte.x7d] Sample.fresh))) = k.
Proof.
  pose proof (proj2 (upload_web3_storage_attempts (Sample.local_env Sample.calm)
                       [Byte.x7b; Byte.x7d] Sample.fresh) eq_refl) as H.
  destruct (_upload_web3_storage _ _ _) as [r st'].
  destruct H as (k & Hk & _ & Hc & _). exists k. split; [exact Hk | exact Hc].
Defined.

(** ** One stream per submission *)

Lemma sent_app tr tr' : sent (tr ++ tr') = (sent tr ++ sent tr')%list.
Proof. apply flat_map_app. Qed.

Lemma sent_filter tr : sent tr = sent (filter is_send tr).
Proof.
  induction tr as [| ev tr IH]; trivial.
  destruct ev; simpl; trivial. now rewrite IH.
Qed.

Lemma notifications_app tr tr' :
  notifications (tr ++ tr') = (notifications tr ++ notifications tr')%list.
Proof. apply flat_map_app. Qed.

Lemma notifications_filter tr :
  notifications tr = notifications (filter is_notification tr).
Proof.
  induction tr as [| ev tr IH]; trivial.
  destruct ev; simpl; trivial. now rewrite IH.
Qed.


Ltac stream_cases E msg sim :=
  run_stream;
  destruct (stream_open (io E)) as [[] | ?e]; simpl;
  [ destruct (send_message (io E) msg) as [[] | e1]; simpl;
    [ destruct (recv_message (io E)) as [? | e2]; simpl;
      [ destruct sim; simpl | destruct e2; simpl]
    | destruct e1; simpl ];
    try match goal with
        | |- context [stream_cancel (io E)] =>
            destruct (stream_cancel (io E)) as [[] | e3]; simpl;
            [| destruct e3; simpl]
        end;
    destruct (stream_close (io E)) as [[] | ?e]; simpl
  | ].

(** The stream of one submission, whatever the collector does. *)
Lemma send_msg_with_closure_spec E msg sim st :
  self (snd (_send_msg_with_closure E msg sim st)) = self st /\
  count is_rpc_call (trace (snd (_send_msg_with_closure E msg sim st)))
  = count is_rpc_call (trace st) /\
  match stream_open (io E) with
  | Raise e =>
      _send_msg_with_closure E msg sim st
      = (Raise e, {| self := self st; trace := (trace st ++ [StreamOpen])%list |})
  | Ok _ =>
      let '(r, st') := _send_msg_with_closure E msg sim st in
      sent (trace st') = (sent (trace st) ++ [msg])%list /\
      (count is_recv (trace st') <= S (count is_recv (trace st)))%nat /\
      (count is_stream_cancel (trace st')
       <= S (count is_stream_cancel (trace st)))%nat /\
      count is_stream_close (trace st') = S (count is_stream_close (trace st)) /\
      ends_with [StreamClose] (trace st') /\
      (r = stream_close (io E) \/
       (stream_close (io E) = Ok tt /\
        exists e, r = Raise e /\ is_Exception e = false /\ e <> CancelledError))
  end.
Proof.
  stream_cases E msg sim.
  all: (split; [reflexivity |]).
  all: split;
    [ rewrite <- ?app_assoc; cbn [app]; rewrite ?count_app;
      cbv [count filter is_rpc_call List.length]; lia |].
  all: try reflexivity.
  all: repeat match goal with |- _ /\ _ => split end.
  all: try match goal with |- ends_with _ _ => eexists; reflexivity end.
  all: try (left; reflexivity).
  all: try (right; (split; [reflexivity |]); eexists; repeat split; discriminate).
  all: rewrite <- ?app_assoc; cbn [app]; rewrite ?sent_app, ?count_app.
  all: cbv [sent flat_map count filter is_recv is_stream_cancel is_stream_close
              List.length app]; rewrite ?Nat.add_0_r.
  all: try reflexivity; lia.
Qed.

(** C9 as stated fails outside [send_message] and [recv_message]: a
    connection reset on opening the stream and a gRPC error on leaving it
    reach the caller with no cancel of the stream attempted, and a
    cancellation that arrives while the stream is left is raised without a
    log line about it. *)
Lemma stream_failure_outside_send_is_not_cancelled :
  _send_msg_with_closure Scenario.open_reset_env Scenario.a_msg false Sample.fresh
  = (Raise ConnectionResetError,
     {| self := self Sample.fresh; trace := [StreamOpen] |}) /\
  _send_msg_with_closure Scenario.close_error_env Scenario.a_msg false Sample.fresh
  = (Raise GRPCError,
     {| self := self Sample.fresh;
        trace := [StreamOpen; SendMessage Scenario.a_msg;
                  Log DEBUG "Sent message to local collector";
                  RecvMessage;
                  Log DEBUG "Received response from local collector";
                  Log INFO "Snapshot submitted successfully to local collector";
                  StreamClose] |}) /\
  _send_msg_with_closure Scenario.cancelled_at_close_env Scenario.a_msg false
    Sample.fresh
  = (Raise CancelledError,
     {| self := self Sample.fresh;
        trace := [StreamOpen; SendMessage Scenario.a_msg;
                  Log DEBUG "Sent message to local collector";
                  RecvMessage;
                  Log DEBUG "Received response from local collector";
                  Log INFO "Snapshot submitted successfully to local collector";
                  StreamClose] |}).
Proof. repeat split. Qed.

(** An error on entering the stream: the body does not run. *)
Lemma stream_open_failure E msg sim st e :
  stream_open (io E) = Raise e ->
  _send_msg_with_closure E msg sim st
  = (Raise e, {| self := self st; trace := (trace st ++ [StreamOpen])%list |}).
Proof. intro H. run_stream. now rewrite H. Qed.

(** An error on leaving the stream replaces whatever the body ended with,
    and nothing follows it. *)
Lemma stream_close_failure E msg sim st e :
  stream_open (io E) = Ok tt ->
  stream_close (io E) = Raise e ->
  let '(r, st') := _send_msg_with_closure E msg sim st in
  r = Raise e /\
  self st' = self st /\
  ends_with [StreamClose] (trace st') /\
  (forall resp,
      send_message (io E) msg = Ok tt ->
      recv_message (io E) = Ok resp ->
      filter is_stream_cancel (trace st') = filter is_stream_cancel (trace st)).
Proof.
  intros Hopen Hclose.
  pose proof (send_msg_with_closure_spec E msg sim st) as (Hself & _ & Hspec).
  rewrite Hopen in Hspec.
  destruct (_send_msg_with_closure E msg sim st) as [r st'] eqn:Hrun.
  cbn [snd] in Hself.
  destruct Hspec as (_ & _ & _ & _ & Hend & Hr).
  split; [| split; [exact Hself | split; [exact Hend |]]].
  - destruct Hr as [-> | [Hok _]]; congruence.
  - intros resp Hs Hrecv. revert Hrun. run_stream.
    rewrite Hopen. simpl. rewrite Hs. simpl. rewrite Hrecv. simpl.
    rewrite Hclose. destruct sim; simpl; intros [= _ <-]; simpl;
      rewrite !filter_snoc; simpl; now rewrite ?app_nil_r.
Qed.

(** A failure to fetch the block leaves the submission step at once. *)
Lemma block_fetch_failure E cid ep p sl pk st e :
  eth_get_block (io E) = Raise e ->
  _send_submission_to_collector E cid ep p sl pk st
  = (Raise e,
     {| self := self st;
        trace := (trace st ++ [Log DEBUG "Sending submission to collector...";
                               EthGetBlock])%list |}).
Proof.
  intro H. unfold _send_submission_to_collector, generate_signature, bind,
    await, log, emit. simpl. rewrite H. simpl.
  now rewrite <- app_assoc.
Qed.

(** C9, as amended.  When sending or receiving on the opened stream raises a
    connection reset or a gRPC error, exactly one cancel of the stream is
    attempted, under a 10s bound; whether the cancel succeeds, times out,
    reports that the stream was already cancelled or fails otherwise, the
    outcome is logged when it is a failure and never leaves
    [_send_msg_with_closure], whose result is then that of closing the
    stream.  A [CancelledError] while sending or receiving is logged and
    absorbed likewise, with no cancel attempt.  An error on opening the
    stream, or on leaving it, is raised by [_send_msg_with_closure] with no
    cancel attempted on its account and nothing logged after it, and so is a
    failure to fetch the block by the submission step.  A commit whose
    submission step returns or is cancelled sends no failure report and
    leaves the miss counters as they were (or resets the consecutive
    one). *)
Theorem stream_failures_and_cancellation
  (E : env) (msg : SnapshotSubmission) (sim : bool) (st : state) :
  (stream_open (io E) = Ok tt ->
   forall e,
      e = ConnectionResetError \/ e = GRPCError ->
      send_message (io E) msg = Raise e \/
      (send_message (io E) msg = Ok tt /\ recv_message (io E) = Raise e) ->
      swallowed (stream_cancel (io E)) ->
      let '(r, st') := _send_msg_with_closure E msg sim st in
      r = stream_close (io E) /\
      self st' = self st /\
      filter is_stream_cancel (trace st')
      = (filter is_stream_cancel (trace st) ++ [StreamCancel 10])%list /\
      match stream_cancel (io E) with
      | Ok _ => ends_with [StreamCancel 10; StreamClose] (trace st')
      | Raise _ =>
          exists lvl text,
            ends_with [StreamCancel 10; Log lvl text; StreamClose] (trace st')
      end) /\
  (stream_open (io E) = Ok tt ->
   send_message (io E) msg = Raise CancelledError \/
   (send_message (io E) msg = Ok tt /\ recv_message (io E) = Raise CancelledError) ->
   let '(r, st') := _send_msg_with_closure E msg sim st in
   r = stream_close (io E) /\
   self st' = self st /\
   filter is_stream_cancel (trace st') = filter is_stream_cancel (trace st) /\
   ends_with
     [Log INFO "Task to send snapshot to local collector was asyncio cancelled!";
      StreamClose] (trace st')) /\
  (forall e,
      stream_open (io E) = Raise e ->
      _send_msg_with_closure E msg sim st
      = (Raise e,
         {| self := self st; trace := (trace st ++ [StreamOpen])%list |})) /\
  (forall e,
      stream_open (io E) = Ok tt ->
      stream_close (io E) = Raise e ->
      let '(r, st') := _send_msg_with_closure E msg sim st in
      r = Raise e /\
      self st' = self st /\
      ends_with [StreamClose] (trace st') /\
      (forall resp,
          send_message (io E) msg = Ok tt ->
          recv_message (io E) = Ok resp ->
          filter is_stream_cancel (trace st')
          = filter is_stream_cancel (trace st))) /\
  (forall e cid ep p sl pk,
      eth_get_block (io E) = Raise e ->
      _send_submission_to_collector E cid ep p sl pk st
      = (Raise e,
         {| self := self st;
            trace := (trace st ++ [Log DEBUG "Sending submission to collector...";
                                   EthGetBlock])%list |})) /\
  (forall t p ep snap flag cid st1 o st2,
      upload_step E (encode_utf8 (dumps_canonical snap)) st = (Ok cid, st1) ->
      _send_submission_to_collector E cid ep p None None st1 = (o, st2) ->
      o = Ok tt \/ o = Raise CancelledError ->
      let st' := snd (_commit_payload E t p ep snap flag st) in
      count is_notification (trace st') = count is_notification (trace st) /\
      totalMissedSubmissions (status (self st'))
      = totalMissedSubmissions (status (self st)) /\
      (consecutiveMissedSubmissions (status (self st')) = 0 \/
       consecutiveMissedSubmissions (status (self st'))
       = consecutiveMissedSubmissions (status (self st)))).
Proof.
  repeat match goal with |- _ /\ _ => split end.
  - intros Hopen e He Hfail Hsw.
    now apply (transport_failure_cancels_stream E msg sim st e).
  - intros Hopen Hfail. now apply cancellation_is_logged_and_absorbed.
  - intros e. apply stream_open_failure.
  - intros e. apply stream_close_failure.
  - intros e cid ep p sl pk. apply block_fetch_failure.
  - intros. eapply no_miss_without_submission_exception; eassumption.
Qed.

Lemma stream_failures_witness :
  let '(r, st') :=
    _send_msg_with_closure Scenario.reset_timeout_env Scenario.a_msg false
      Sample.fresh in
  r = Ok tt /\
  filter is_stream_cancel (trace st') = [StreamCancel 10] /\
  exists lvl text,
    ends_with [StreamCancel 10; Log lvl text; StreamClose] (trace st').
Proof.
  pose proof (proj1 (stream_failures_and_cancellation
                       Scenario.reset_timeout_env Scenario.a_msg false
                       Sample.fresh) eq_refl
                ConnectionResetError (or_introl eq_refl)
                (or_introl eq_refl) (or_intror eq_refl)) as H.
  cbv beta iota zeta delta
    [_send_msg_with_closure async_with try_except_else bind await emit lift
       log ret Scenario.reset_timeout_env Sample.local_env Sample.with_cancel
       Sample.with_send Sample.calm io stream_open stream_close send_message
       recv_message stream_cancel Sample.fresh self trace app
       is_Exception CANCEL_TIMEOUT filter is_stream_cancel] in H |- *.
  destruct H as (H1 & _ & H3 & H4). repeat split; assumption.
Defined.



(** ** What a commit puts on the wire and in its reports *)

Lemma hex_length bs : String.length (hex bs) = (2 * List.length bs)%nat.
Proof.
  induction bs as [| b bs IH]; trivial.
  cbn [hex hex_of_byte List.length append String.length]. rewrite IH. lia.
Qed.

Lemma sent_of_filter_eq tr tr' :
  filter is_send tr = filter is_send tr' -> sent tr = sent tr'.
Proof. intro H. now rewrite (sent_filter tr), (sent_filter tr'), H. Qed.

Lemma notifications_of_filter_eq tr tr' :
  filter is_notification tr = filter is_notification tr' ->
  notifications tr = notifications tr'.
Proof.
  intro H. now rewrite (notifications_filter tr), (notifications_filter tr'), H.
Qed.

Lemma count_of_filter_eq p tr tr' :
  filter p tr = filter p tr' -> count p tr = count p tr'.
Proof. unfold count. now intros ->. Qed.

Lemma ignores_uploads_send : ignores_uploads is_send.
Proof. now repeat split. Qed.

Lemma ignores_uploads_stream : ignores_uploads is_stream_event.
Proof. now repeat split. Qed.

Lemma ignores_uploads_rpc : ignores_uploads is_rpc_call.
Proof. now repeat split. Qed.

(** Signing costs one RPC call, made first and never repeated, and leaves
    no other mark. *)
Lemma generate_signature_state E cid ep pr sl pk st :
  snd (generate_signature E cid ep pr sl pk st)
  = {| self := self st; trace := (trace st ++ [EthGetBlock])%list |}.
Proof.
  unfold generate_signature, await, bind, lift, emit, get_self, ret. simpl.
  destruct (eth_get_block (io E)) as [blk | e]; [| reflexivity].
  destruct (int_base16 (number blk)) as [n | e]; [| reflexivity].
  destruct (signable_bytes (lib E) _) as [signable | e]; [| reflexivity].
  assert (Hrest : forall (o : outcome bytes) (s : state),
             snd (match o with
                  | Ok raw =>
                      match index_64 raw with
                      | Ok recid =>
                          match to_bytes (big_endian_to_int (firstn 32 raw)) 32 with
                          | Ok rb =>
                              match to_bytes (big_endian_to_int
                                                (firstn 32 (skipn 32 raw))) 32 with
                              | Ok sb =>
                                  match to_bytes (byte_val recid + 27) 1 with
                                  | Ok vb =>
                                      (Ok ({| slotId :=
                                                match sl with
                                                | Some s0 =>
                                                    if s0 =? 0
                                                    then settings_slot_id (cfg E)
                                                    else s0
                                                | None => settings_slot_id (cfg E)
                                                end;
                                              deadline := n + deadline_buffer (cfg E);
                                              snapshotCid := cid;
                                              epochId := ep;
                                              projectId := pr |},
                                           (rb ++ sb ++ vb)%list, hash blk), s)
                                  | Raise e => (Raise e, s)
                                  end
                              | Raise e => (Raise e, s)
                              end
                          | Raise e => (Raise e, s)
                          end
                      | Raise e => (Raise e, s)
                      end
                  | Raise e => (Raise e, s)
                  end) = s).
  { intros [raw | e] s; [| reflexivity].
    destruct (index_64 raw); [| reflexivity].
    destruct (to_bytes _ 32); [| reflexivity].
    destruct (to_bytes _ 32); [| reflexivity].
    now destruct (to_bytes _ 1). }
  destruct pk as [k |]; [destruct (truthy k) |]; simpl.
  - destruct (from_hex _) as [key | e]; [| reflexivity]. apply Hrest.
  - apply Hrest.
  - apply Hrest.
Qed.

(** The submission step: one RPC call; a message on the stream exactly when
    the request was signed and the stream was had; that message is the
    signed request. *)
Lemma send_submission_spec E cid ep p sl pk st :
  let '(r, st') := _send_submission_to_collector E cid ep p sl pk st in
  self st' = self st /\
  count is_rpc_call (trace st') = S (count is_rpc_call (trace st)) /\
  match fst (generate_signature E cid ep p sl pk
               (snd (log DEBUG "Sending submission to collector..." st))) with
  | Raise e =>
      r = Raise e /\
      sent (trace st') = sent (trace st) /\
      count is_stream_event (trace st') = count is_stream_event (trace st)
  | Ok (req, final_sig, h) =>
      match stream_open (io E) with
      | Ok _ =>
          sent (trace st')
          = (sent (trace st)
             ++ [{| request := req; signature := hex final_sig; header := h |}])%list
      | Raise _ => sent (trace st') = sent (trace st)
      end
  end.
Proof.
  unfold _send_submission_to_collector. unfold bind at 1.
  unfold log at 1, emit at 1. unfold bind at 1. cbn [snd log emit].
  set (s0 := {| self := self st; trace := _ |}).
  pose proof (generate_signature_state E cid ep p sl pk s0) as Hs1.
  destruct (generate_signature E cid ep p sl pk s0)
    as [[[[req final_sig] h] | e] s1] eqn:Hg; cbn [fst snd] in *; subst s1 s0;
    cbn [self trace].
  - unfold bind at 1. unfold log at 1, emit at 1.
    unfold bind at 1. unfold log at 1, emit at 1.
    unfold try_except_else. cbn [self trace].
    match goal with
    | |- context [_send_msg_with_closure E ?m ?sim ?s] =>
        pose proof (send_msg_with_closure_spec E m sim s) as (Hself & Hrpc & Hspec);
        destruct (_send_msg_with_closure E m sim s) as [r2 st2] eqn:Hrun
    end.
    cbn [snd self trace] in Hself, Hrpc.
    rewrite !count_snoc in Hrpc. cbn [is_rpc_call] in Hrpc.
    assert (Hsent : sent (trace st2)
                    = (sent (trace st)
                       ++ match stream_open (io E) with
                          | Ok _ => [{| request := req;
                                        signature := hex final_sig;
                                        header := h |}]
                          | Raise _ => []
                          end)%list).
    { destruct (stream_open (io E)) as [[] | eo].
      - destruct Hspec as (Hsent & _). cbn [trace] in Hsent.
        rewrite Hsent, !sent_app. cbn [sent flat_map app].
        now rewrite !app_nil_r.
      - injection Hspec as _ ->. cbn [trace]. rewrite !sent_app.
        cbn [sent flat_map app]. now rewrite !app_nil_r. }
    assert (Hfinal : forall text lvl,
               let st3 := {| self := self st2;
                             trace := (trace st2 ++ [Log lvl text])%list |} in
               self st3 = self st /\
               count is_rpc_call (trace st3) = S (count is_rpc_call (trace st)) /\
               sent (trace st3) = sent (trace st2)).
    { intros text lvl. cbn [self trace].
      rewrite count_snoc, sent_app. cbn [is_rpc_call sent flat_map].
      rewrite app_nil_r. repeat split; [assumption | lia]. }
    destruct r2 as [[] | e2]; [| destruct e2]; cbv [is_Exception log emit];
      cbn [self trace];
      try (destruct (Hfinal "x" DEBUG) as (F1 & F2 & F3); cbn [self trace] in *);
      (split; [assumption |]);
      (split; [rewrite ?count_snoc; cbn [is_rpc_call]; lia |]);
      rewrite ?sent_app; cbn [sent flat_map]; rewrite ?app_nil_r;
      destruct (stream_open (io E)) as [[] | eo];
      rewrite Hsent; rewrite ?app_nil_r; reflexivity.
  - rewrite !count_snoc, !sent_app. cbn [is_rpc_call is_stream_event sent flat_map].
    rewrite !app_nil_r. repeat split; lia.
Qed.

Lemma after_spawn flag b s :
  self (snd (spawn_archival flag b s)) = self s /\
  sent (trace (snd (spawn_archival flag b s))) = sent (trace s) /\
  notifications (trace (snd (spawn_archival flag b s))) = notifications (trace s) /\
  (forall p, p (EnsureFuture b) = false ->
             count p (trace (snd (spawn_archival flag b s))) = count p (trace s)).
Proof.
  rewrite spawn_archival_spec. cbn [snd self trace].
  rewrite sent_app, notifications_app.
  destruct flag; cbn [sent notifications flat_map]; rewrite ?app_nil_r;
    repeat split; trivial; intros q Hq;
    rewrite ?count_snoc, ?Hq, ?app_nil_r; lia.
Qed.

Lemma after_report E what p ep e s :
  let s' := snd (report_missed_snapshot E what p ep e s) in
  _private_key (self s') = _private_key (self s) /\
  _identity_private_key (self s') = _identity_private_key (self s) /\
  missed_update (status (self s)) (status (self s')) /\
  sent (trace s') = sent (trace s) /\
  (forall q, q (Log ERROR what) = false ->
             (forall m, q (FailureNotification m) = false) ->
             count q (trace s') = count q (trace s)) /\
  notifications (trace s')
  = (notifications (trace s)
     ++ [{| snapshotterIssue :=
              {| instanceID := instance_id (cfg E);
                 issueType := MISSED_SNAPSHOT;
                 projectID := p;
                 issueEpochId := int_repr ep;
                 timeOfReporting := time_now (io E);
                 extra := issue_details e |};
            snapshotterStatus := status (self s') |}])%list.
Proof.
  cbv zeta. unfold report_missed_snapshot, send_failure_notifications_async,
    log, emit, bind, get_status, set_status, missed_update.
  cbn [snd self trace status totalMissedSubmissions consecutiveMissedSubmissions
         totalSuccessfulSubmissions _private_key _identity_private_key].
  rewrite !sent_app, !notifications_app.
  cbn [sent notifications flat_map]. rewrite !app_nil_r.
  repeat split.
  intros q H1 H2. now rewrite !count_snoc, H1, H2, !Nat.add_0_r.
Qed.

Lemma after_success s :
  let s' := snd (record_success s) in
  _private_key (self s') = _private_key (self s) /\
  _identity_private_key (self s') = _identity_private_key (self s) /\
  success_update (status (self s)) (status (self s')) /\
  trace s' = trace s.
Proof. cbv zeta. rewrite record_success_spec. now repeat split. Qed.

(** X5.  A commit puts at most one message on the collector stream.  That
    message carries the content id the upload step produced - the id the
    commit returns unless it is aborted -, the commit's epoch and project,
    the slot of the settings, the deadline and header of the one block that
    was fetched, and a signature of 130 hexadecimal characters. *)
Theorem commit_sends_what_it_returns
  (E : env) (t p : string) (ep : Z) (snap : json) (flag : bool) (st : state) :
  let '(r, st') := _commit_payload E t p ep snap flag st in
  sent (trace st') = sent (trace st) \/
  exists msg blk n,
    sent (trace st') = (sent (trace st) ++ [msg])%list /\
    fst (upload_step E (encode_utf8 (dumps_canonical snap)) st)
    = Ok (snapshotCid (request msg)) /\
    returns_or_aborted (snapshotCid (request msg)) r /\
    epochId (request msg) = ep /\
    projectId (request msg) = p /\
    slotId (request msg) = settings_slot_id (cfg E) /\
    eth_get_block (io E) = Ok blk /\
    int_base16 (number blk) = Ok n /\
    deadline (request msg) = n + deadline_buffer (cfg E) /\
    header msg = hash blk /\
    String.length (signature msg) = 130%nat.
Proof.
  rewrite commit_payload_cases. cbv zeta.
  set (b := encode_utf8 (dumps_canonical snap)).
  destruct (preserves_upload_step is_send E b ignores_uploads_send st) as [_ U].
  apply sent_of_filter_eq in U.
  destruct (upload_step E b st) as [[cid | e] st1]; cbn [snd fst] in *.
  - pose proof (send_submission_spec E cid ep p None None st1) as S.
    destruct (_send_submission_to_collector E cid ep p None None st1)
      as [ro st2].
    destruct S as (_ & _ & S).
    destruct (generate_signature E cid ep p None None _)
      as [[[[req final_sig] h] | eg] sg] eqn:Hg; cbn [fst] in S.
    + apply generate_signature_Ok in Hg
        as (blk & n & ? & ? & ? & ? & Hblk & Hn & Hh & Hreq & _ & _ & _ & _ & _
            & Hsig & _).
      subst h req final_sig.
      assert (Hall :
                forall s', sent (trace s') = sent (trace st2) ->
                forall r, returns_or_aborted cid r ->
                sent (trace s') = sent (trace st) \/
                exists msg blk n,
                  sent (trace s') = (sent (trace st) ++ [msg])%list /\
                  Ok cid = Ok (snapshotCid (request msg)) /\
                  returns_or_aborted (snapshotCid (request msg)) r /\
                  epochId (request msg) = ep /\
                  projectId (request msg) = p /\
                  slotId (request msg) = settings_slot_id (cfg E) /\
                  eth_get_block (io E) = Ok blk /\
                  int_base16 (number blk) = Ok n /\
                  deadline (request msg) = n + deadline_buffer (cfg E) /\
                  header msg = hash blk /\
                  String.length (signature msg) = 130%nat).
      { intros s' Hs' r Hr. rewrite Hs'.
        destruct (stream_open (io E)) as [[] | eo]; rewrite S, U; [| now left].
        right. eexists _, blk, n. split; [reflexivity |].
        cbn [request signature header snapshotCid epochId projectId slotId
               deadline requested_slot].
        repeat split; trivial;
          rewrite hex_length, !length_app, !be_digits_length; reflexivity. }
      destruct ro as [[] | eo].
      * apply Hall; [| now left].
        destruct (after_spawn flag b (snd (record_success st2))) as (_ & -> & _).
        destruct (after_success st2) as (_ & _ & _ & Ht). cbv zeta in Ht.
        now rewrite Ht.
      * destruct (is_Exception eo) eqn:He.
        -- apply Hall; [| now left].
           destruct (after_spawn flag b
                       (snd (report_missed_snapshot E SUBMISSION_FAILED p ep eo st2)))
             as (_ & -> & _).
           now destruct (after_report E SUBMISSION_FAILED p ep eo st2)
             as (_ & _ & _ & -> & _).
        -- apply Hall; [reflexivity |]. right. now exists eo.
    + destruct S as (-> & S & _).
      destruct (is_Exception eg); left.
      * destruct (after_spawn flag b
                    (snd (report_missed_snapshot E SUBMISSION_FAILED p ep eg st2)))
          as (_ & -> & _).
        destruct (after_report E SUBMISSION_FAILED p ep eg st2)
          as (_ & _ & _ & -> & _). congruence.
      * cbn [snd]. congruence.
  - destruct (is_Exception e); left.
    + destruct (after_spawn flag b
                  (snd (report_missed_snapshot E UPLOAD_FAILED p ep e st1)))
        as (_ & -> & _).
      destruct (after_report E UPLOAD_FAILED p ep e st1)
        as (_ & _ & _ & -> & _). assumption.
    + assumption.
Qed.

(** X6.  A commit sends a failure report exactly when its upload step, or
    else its submission step, raised an [Exception], and then exactly one.
    The report is a MISSED_SNAPSHOT issue naming the instance, the project
    and the epoch of the commit, stamped with the clock, giving as details
    that very exception, and its status is the worker's status as the commit
    leaves it - that is, with the miss already counted. *)
Theorem failure_report_content
  (E : env) (t p : string) (ep : Z) (snap : json) (flag : bool) (st : state) :
  let caught :=
    match upload_step E (encode_utf8 (dumps_canonical snap)) st with
    | (Raise e, _) => if is_Exception e then Some e else None
    | (Ok cid, st1) =>
        match fst (_send_submission_to_collector E cid ep p None None st1) with
        | Raise e => if is_Exception e then Some e else None
        | Ok _ => None
        end
    end in
  let '(r, st') := _commit_payload E t p ep snap flag st in
  match caught with
  | None => notifications (trace st') = notifications (trace st)
  | Some e =>
      missed_update (status (self st)) (status (self st')) /\
      notifications (trace st')
      = (notifications (trace st)
         ++ [{| snapshotterIssue :=
                  {| instanceID := instance_id (cfg E);
                     issueType := MISSED_SNAPSHOT;
                     projectID := p;
                     issueEpochId := int_repr ep;
                     timeOfReporting := time_now (io E);
                     extra := issue_details e |};
                snapshotterStatus := status (self st') |}])%list
  end.
Proof.
  cbv zeta. rewrite commit_payload_cases. cbv zeta.
  set (b := encode_utf8 (dumps_canonical snap)).
  destruct (preserves_upload_step is_notification E b
              ignores_uploads_notification st) as [U1 U2].
  apply notifications_of_filter_eq in U2.
  destruct (upload_step E b st) as [[cid | e] st1]; cbn [snd] in U1, U2.
  - destruct (preserves_send_submission_to_collector is_notification E cid ep p
                None None ignores_submission_notification st1) as [S1 S2].
    apply notifications_of_filter_eq in S2.
    destruct (_send_submission_to_collector E cid ep p None None st1)
      as [[[] | e] st2]; cbn [fst snd] in S1, S2 |- *.
    + destruct (after_spawn flag b (snd (record_success st2))) as (_ & _ & -> & _).
      destruct (after_success st2) as (_ & _ & _ & Ht). cbv zeta in Ht.
      rewrite Ht. congruence.
    + destruct (is_Exception e) eqn:He; [| cbn [snd]; congruence].
      destruct (after_spawn flag b
                  (snd (report_missed_snapshot E SUBMISSION_FAILED p ep e st2)))
        as (-> & _ & -> & _).
      destruct (after_report E SUBMISSION_FAILED p ep e st2)
        as (_ & _ & Hm & _ & _ & ->). cbv zeta in Hm.
      rewrite S1, U1 in Hm. rewrite S2, U2. now split.
  - destruct (is_Exception e) eqn:He; [| assumption].
    destruct (after_spawn flag b
                (snd (report_missed_snapshot E UPLOAD_FAILED p ep e st1)))
      as (-> & _ & -> & _).
    destruct (after_report E UPLOAD_FAILED p ep e st1)
      as (_ & _ & Hm & _ & _ & ->). cbv zeta in Hm.
    rewrite U1 in Hm. rewrite U2. now split.
Qed.

Lemma generate_signature_rpc_failure E cid ep pr sl pk st e :
  eth_get_block (io E) = Raise e ->
  fst (generate_signature E cid ep pr sl pk st) = Raise e.
Proof.
  intro H. unfold generate_signature, await, bind, lift, emit. simpl.
  now rewrite H.
Qed.

(** X7.  When the upload succeeded and fetching the block fails with an
    [Exception], the commit still returns the content id and records one
    miss with one report about that exception.  The RPC was called once and
    not again, no stream was opened and nothing was sent. *)
Theorem rpc_failure_is_a_recorded_miss
  (E : env) (t p : string) (ep : Z) (snap : json) (flag : bool)
  (st st1 : state) (cid : string) (e : exn)
  (Hup : upload_step E (encode_utf8 (dumps_canonical snap)) st = (Ok cid, st1))
  (Hrpc : eth_get_block (io E) = Raise e)
  (He : is_Exception e = true) :
  let '(r, st') := _commit_payload E t p ep snap flag st in
  r = Ok cid /\
  missed_update (status (self st)) (status (self st')) /\
  (exists m, notifications (trace st') = (notifications (trace st) ++ [m])%list /\
             extra (snapshotterIssue m) = issue_details e /\
             snapshotterStatus m = status (self st')) /\
  count is_rpc_call (trace st') = S (count is_rpc_call (trace st)) /\
  count is_stream_event (trace st') = count is_stream_event (trace st) /\
  sent (trace st') = sent (trace st).
Proof.
  rewrite commit_payload_cases. cbv zeta.
  set (b := encode_utf8 (dumps_canonical snap)) in *.
  destruct (preserves_upload_step is_notification E b
              ignores_uploads_notification st) as [U1 U2].
  destruct (preserves_upload_step is_rpc_call E b ignores_uploads_rpc st)
    as [_ U3].
  destruct (preserves_upload_step is_stream_event E b ignores_uploads_stream st)
    as [_ U4].
  destruct (preserves_upload_step is_send E b ignores_uploads_send st)
    as [_ U5].
  apply notifications_of_filter_eq in U2. apply count_of_filter_eq in U3, U4.
  apply sent_of_filter_eq in U5.
  rewrite Hup in *. cbn [snd] in *.
  destruct (preserves_send_submission_to_collector is_notification E cid ep p
              None None ignores_submission_notification st1) as [_ S2].
  apply notifications_of_filter_eq in S2.
  pose proof (send_submission_spec E cid ep p None None st1) as S.
  rewrite (generate_signature_rpc_failure _ _ _ _ _ _ _ _ Hrpc) in S.
  destruct (_send_submission_to_collector E cid ep p None None st1)
    as [ro st2]. cbn [snd] in S2.
  destruct S as (S1 & S3 & -> & S5 & S4). rewrite He.
  destruct (after_spawn flag b
              (snd (report_missed_snapshot E SUBMISSION_FAILED p ep e st2)))
    as (-> & -> & -> & Hc).
  rewrite !Hc by reflexivity.
  destruct (after_report E SUBMISSION_FAILED p ep e st2)
    as (_ & _ & Hm & -> & Hq & ->). cbv zeta in Hm.
  rewrite !Hq by reflexivity.
  rewrite S1, U1 in Hm.
  repeat split; try (apply Hm); try congruence.
  eexists. rewrite S2, U2. repeat split.
Qed.

Lemma rpc_failure_witness :
  let '(r, st') := run_commit (Sample.call Scenario.rpc_down_env) Sample.fresh in
  r = Ok "cid-7b2261223a317d" /\
  totalMissedSubmissions (status (self st')) = 1 /\
  count is_stream_event (trace st') = 0%nat.
Proof.
  pose proof (rpc_failure_is_a_recorded_miss Scenario.rpc_down_env "task"
                "project" 5 Sample.snap_a1 false Sample.fresh Sample.fresh
                "cid-7b2261223a317d" (OtherException "RPCException")
                eq_refl eq_refl eq_refl) as H.
  unfold run_commit, Sample.call. cbn [call_env call_project_id call_epochId
    call_snapshot call_storage_flag].
  destruct (_commit_payload _ _ _ _ _ _ _) as [r st'].
  destruct H as (H1 & (H2 & _) & _ & _ & H5 & _).
  repeat split; [exact H1 | exact H2 | exact H5].
Defined.

(** ** The counters over a run *)

Lemma length_notifications tr :
  List.length (notifications tr) = count is_notification tr.
Proof.
  unfold count. induction tr as [| ev tr IH]; trivial.
  destruct ev; simpl; trivial. now rewrite IH.
Qed.

Lemma after_report_count E what p ep e s :
  count is_notification (trace (snd (report_missed_snapshot E what p ep e s)))
  = S (count is_notification (trace s)).
Proof.
  destruct (after_report E what p ep e s) as (_ & _ & _ & _ & _ & Hn).
  cbv zeta in Hn. apply (f_equal (@List.length _)) in Hn.
  rewrite length_app, !length_notifications in Hn. cbn [List.length] in Hn. lia.
Qed.

Lemma commit_worker_step E t p ep snap flag st :
  let st' := snd (_commit_payload E t p ep snap flag st) in
  _private_key (self st') = _private_key (self st) /\
  _identity_private_key (self st') = _identity_private_key (self st) /\
  ((status (self st') = status (self st) /\
    count is_notification (trace st') = count is_notification (trace st)) \/
   (missed_update (status (self st)) (status (self st')) /\
    count is_notification (trace st') = S (count is_notification (trace st))) \/
   (success_update (status (self st)) (status (self st')) /\
    count is_notification (trace st') = count is_notification (trace st))).
Proof.
  cbv zeta. rewrite commit_payload_cases. cbv zeta.
  set (b := encode_utf8 (dumps_canonical snap)).
  destruct (preserves_upload_step is_notification E b
              ignores_uploads_notification st) as [U1 U2].
  apply count_of_filter_eq in U2.
  destruct (upload_step E b st) as [[cid | e] st1]; cbn [snd] in U1, U2.
  - destruct (preserves_send_submission_to_collector is_notification E cid ep p
                None None ignores_submission_notification st1) as [S1 S2].
    apply count_of_filter_eq in S2.
    destruct (_send_submission_to_collector E cid ep p None None st1)
      as [[[] | e] st2]; cbn [snd] in S1, S2 |- *.
    + destruct (after_spawn flag b (snd (record_success st2)))
        as (-> & _ & _ & Hc). rewrite Hc by reflexivity.
      destruct (after_success st2) as (K1 & K2 & Hm & Ht). cbv zeta in *.
      rewrite K1, K2, Ht, S1, U1, S2, U2. rewrite S1, U1 in Hm. auto 8.
    + destruct (is_Exception e); cbn [snd].
      * destruct (after_spawn flag b
                    (snd (report_missed_snapshot E SUBMISSION_FAILED p ep e st2)))
          as (-> & _ & _ & Hc). rewrite Hc by reflexivity.
        rewrite after_report_count.
        destruct (after_report E SUBMISSION_FAILED p ep e st2)
          as (K1 & K2 & Hm & _). cbv zeta in *.
        rewrite K1, K2, S1, U1, S2, U2. rewrite S1, U1 in Hm. auto 8.
      * rewrite S1, U1, S2, U2. auto 8.
  - destruct (is_Exception e); cbn [snd].
    + destruct (after_spawn flag b
                  (snd (report_missed_snapshot E UPLOAD_FAILED p ep e st1)))
        as (-> & _ & _ & Hc). rewrite Hc by reflexivity.
      rewrite after_report_count.
      destruct (after_report E UPLOAD_FAILED p ep e st1)
        as (K1 & K2 & Hm & _). cbv zeta in *.
      rewrite K1, K2, U1, U2. rewrite U1 in Hm. auto 8.
    + rewrite U1, U2. auto 8.
Qed.

(** X8.  Over any run of commits, against any worlds: the signing keys of
    the worker are never touched; both totals only grow, together by at most
    one per commit; the consecutive counter never exceeds the total of
    misses and no counter turns negative, provided this held at the start;
    and the number of reports sent is exactly the growth of
    [totalMissedSubmissions]. *)
Theorem counters_over_a_run
  (cs : list commit_call) (st : state)
  (Hinv : status_invariant (status (self st))) :
  let s := status (self st) in
  let st' := run_commits cs st in
  let s' := status (self st') in
  status_invariant s' /\
  totalMissedSubmissions s <= totalMissedSubmissions s' /\
  totalSuccessfulSubmissions s <= totalSuccessfulSubmissions s' /\
  totalMissedSubmissions s' + totalSuccessfulSubmissions s'
  <= totalMissedSubmissions s + totalSuccessfulSubmissions s
     + Z.of_nat (List.length cs) /\
  Z.of_nat (count is_notification (trace st'))
  - Z.of_nat (count is_notification (trace st))
  = totalMissedSubmissions s' - totalMissedSubmissions s /\
  _private_key (self st') = _private_key (self st) /\
  _identity_private_key (self st') = _identity_private_key (self st).
Proof.
  cbv zeta. revert st Hinv.
  induction cs as [| c cs IH]; intros st Hinv.
  - cbn [run_commits List.length]. repeat split; try apply Hinv; lia.
  - cbn [run_commits List.length]. unfold run_commit.
    destruct (commit_worker_step (call_env c) "task" (call_project_id c)
                (call_epochId c) (call_snapshot c) (call_storage_flag c) st)
      as (K1 & K2 & Hstep). cbv zeta in K1, K2, Hstep.
    set (st1 := snd (_commit_payload _ _ _ _ _ _ st)) in *.
    assert (Hinv1 : status_invariant (status (self st1))).
    { unfold status_invariant, missed_update, success_update in *.
      destruct Hstep as [[-> _] | [[(M1 & M2 & M3) _] | [(M1 & M2 & M3) _]]];
        [assumption | rewrite M1, M2, M3; lia | rewrite M1, M2, M3; lia]. }
    destruct (IH st1 Hinv1) as (I1 & I2 & I3 & I4 & I5 & I6 & I7).
    rewrite I6, I7, K1, K2, Nat2Z.inj_succ.
    unfold missed_update, success_update in Hstep.
    destruct Hstep as [[Hs Hn] | [[(M1 & M2 & M3) Hn] | [(M1 & M2 & M3) Hn]]];
      repeat split; try apply I1; try rewrite Hs in *; lia.
Qed.

Lemma counters_over_a_run_witness :
  let st' := run_commits [Sample.call Scenario.rpc_down_env;
                          Sample.call Scenario.reset_env;
                          Sample.call Scenario.ipfs_rejects_env] Sample.fresh in
  status_invariant (status (self st')) /\
  Z.of_nat (count is_notification (trace st'))
  = totalMissedSubmissions (status (self st')).
Proof.
  pose proof (counters_over_a_run
                [Sample.call Scenario.rpc_down_env; Sample.call Scenario.reset_env;
                 Sample.call Scenario.ipfs_rejects_env] Sample.fresh
                ltac:(unfold status_invariant; simpl; lia))
    as (H1 & _ & _ & _ & H5 & _).
  split; [exact H1 |].
  change (count is_notification (trace Sample.fresh)) with 0%nat in H5.
  change (totalMissedSubmissions (status (self Sample.fresh))) with 0 in H5.
  cbv zeta. lia.
Defined.

(** ** The canonical text *)

Lemma insert_item_perm {V} (kv : string * V) l :
  Permutation (insert_item kv l) (kv :: l).
Proof.
  induction l as [| kv' l IH]; simpl; trivial.
  destruct (String.leb (fst kv) (fst kv')); trivial.
  rewrite IH. apply perm_swap.
Qed.

Lemma sorted_items_perm {V} (l : list (string * V)) :
  Permutation (sorted_items l) l.
Proof.
  induction l as [| kv l IH]; simpl; trivial.
  rewrite insert_item_perm. now constructor.
Qed.

Lemma insert_item_sorted {V} (kv : string * V) l :
  Sorted.StronglySorted key_le l ->
  Sorted.StronglySorted key_le (insert_item kv l).
Proof.
  induction 1 as [| kv' l Hs IH Hall]; simpl.
  - repeat constructor.
  - destruct (String.leb (fst kv) (fst kv')) eqn:L.
    + constructor; [now constructor |].
      constructor; [exact L |].
      eapply Forall_impl; [| exact Hall].
      intros a Ha. unfold key_le in *.
      eapply JsonFacts.leb_trans; eassumption.
    + constructor; [assumption |].
      eapply Permutation_Forall; [symmetry; apply insert_item_perm |].
      constructor; [| assumption].
      unfold key_le. now apply JsonFacts.leb_false_flip.
Qed.

(** X9.  [sorted_items], the order in which
    [json.dumps(sort_keys=True)] writes a dict, is a rearrangement of the
    items, none lost and none added, in which every key is at most every key
    after it. *)
Theorem sorted_items_is_a_sorted_permutation
  {V : Type} (items : list (string * V)) :
  Permutation (sorted_items items) items /\
  Sorted.StronglySorted key_le (sorted_items items) /\
  List.length (sorted_items items) = List.length items.
Proof.
  split; [apply sorted_items_perm | split].
  - induction items as [| kv l IH]; simpl; [constructor |].
    now apply insert_item_sorted.
  - apply Permutation_length, sorted_items_perm.
Qed.

Lemma printable_append a b :
  printable (a ++ b) = printable a && printable b.
Proof.
  induction a as [| c a IH]; simpl; trivial. now rewrite IH, andb_assoc.
Qed.

Lemma printable_concat sep l :
  printable sep = true ->
  Forall (fun s => printable s = true) l ->
  printable (String.concat sep l) = true.
Proof.
  intros Hsep. induction 1 as [| s l Hs Hl IH]; trivial.
  simpl. destruct l as [| s' l']; [assumption |].
  rewrite !printable_append, Hs, Hsep. exact IH.
Qed.

Lemma printable_hex_digit n : printable_char (hex_digit n) = true.
Proof.
  destruct n as [| p]; [reflexivity |].
  do 4 (try destruct p as [p | p |]; try reflexivity).
Qed.

Lemma printable_escape_char c : printable (escape_char c) = true.
Proof.
  unfold escape_char.
  repeat match goal with
         | |- context [if ?b then _ else _] => destruct b eqn:?; [reflexivity |]
         end.
  destruct ((N_of_ascii c <? 32) || (126 <? N_of_ascii c))%N eqn:H.
  - simpl. now rewrite !printable_hex_digit.
  - simpl. unfold printable_char. apply orb_false_elim in H as [H1 H2].
    apply N.ltb_ge in H1, H2.
    rewrite andb_true_r. apply andb_true_intro.
    split; now apply N.leb_le.
Qed.

Lemma printable_escape s : printable (escape s) = true.
Proof.
  induction s as [| c s IH]; trivial.
  simpl. now rewrite printable_append, printable_escape_char.
Qed.

Lemma printable_basestring s : printable (encode_basestring_ascii s) = true.
Proof.
  unfold encode_basestring_ascii.
  now rewrite !printable_append, printable_escape.
Qed.

Lemma printable_uint d : printable (NilEmpty.string_of_uint d) = true.
Proof. induction d; simpl; trivial. Qed.

Lemma printable_int_repr n : printable (int_repr n) = true.
Proof.
  unfold int_repr, NilZero.string_of_int, NilZero.string_of_uint.
  destruct (Z.to_int n) as [d | d]; destruct d; simpl;
    trivial; apply printable_uint.
Qed.

Lemma printable_dumps_with sort_keys isep ksep j :
  printable isep = true -> printable ksep = true ->
  printable (dumps_with sort_keys isep ksep j) = true.
Proof.
  intros Hi Hk. induction j as [| [] | n | s | elems IH | items IH]
    using json_induction; trivial.
  - apply printable_int_repr.
  - apply printable_basestring.
  - cbn [dumps_with]. rewrite !printable_append. simpl.
    rewrite andb_true_r. apply printable_concat; [assumption |].
    now apply Forall_map.
  - cbn [dumps_with]. rewrite !printable_append. simpl.
    rewrite andb_true_r. apply printable_concat; [assumption |].
    apply Forall_map.
    assert (Hr : Forall (fun kv : string * string =>
                           printable (render_item ksep kv) = true)
                   (map (fun kv => (fst kv, dumps_with sort_keys isep ksep (snd kv)))
                      items)).
    { apply Forall_map. eapply Forall_impl; [| exact IH].
      intros kv H. unfold render_item. cbn [fst snd].
      now rewrite !printable_append, printable_basestring, Hk, H. }
    destruct sort_keys; [| assumption].
    eapply Permutation_Forall; [symmetry; apply sorted_items_perm | assumption].
Qed.

Lemma encode_utf8_printable s :
  printable s = true ->
  encode_utf8 s = map byte_of_ascii (list_ascii_of_string s).
Proof.
  induction s as [| c s IH]; trivial.
  simpl. intro H. apply andb_prop in H as [Hc Hs].
  rewrite IH by assumption. unfold utf8_char.
  unfold printable_char in Hc. apply andb_prop in Hc as [_ Hc].
  apply N.leb_le in Hc.
  destruct (N_of_ascii c <? 128)%N eqn:L; trivial.
  apply N.ltb_ge in L. lia.
Qed.

(** X10.  Whatever the snapshot holds, its canonical text consists of
    printable ASCII only (every other character is escaped), so the bytes
    that are hashed, uploaded and archived are that text character for
    character, one byte each. *)
Theorem canonical_text_is_printable_ascii (snapshot : json) :
  let text := dumps_canonical snapshot in
  printable text = true /\
  encode_utf8 text = map byte_of_ascii (list_ascii_of_string text) /\
  List.length (encode_utf8 text) = String.length text /\
  Forall (fun b => 32 <= byte_val b <= 126) (encode_utf8 text).
Proof.
  cbv zeta.
  assert (Hp : printable (dumps_canonical snapshot) = true)
    by (now apply printable_dumps_with).
  split; [assumption |].
  rewrite (encode_utf8_printable _ Hp).
  split; [reflexivity |].
  generalize dependent (dumps_canonical snapshot).
  induction s as [| c s IH]; intro Hp; [split; [trivial | constructor] |].
  simpl in Hp. apply andb_prop in Hp as [Hc Hs].
  destruct (IH Hs) as [IH1 IH2].
  split; [simpl; now rewrite IH1 |].
  simpl. constructor; [| assumption].
  unfold printable_char in Hc. apply andb_prop in Hc as [H1 H2].
  apply N.leb_le in H1, H2.
  assert (Hb : Byte.to_N (byte_of_ascii c) = N_of_ascii c).
  { apply Byte.to_of_N. symmetry. apply byte_of_ascii_via_N. }
  unfold byte_val. rewrite Hb. lia.
Qed.

(** ** The pooled stream *)

Lemma cancel_calls_app tr tr' :
  cancel_calls (tr ++ tr') = (cancel_calls tr ++ cancel_calls tr')%list.
Proof. apply flat_map_app. Qed.

(** X11.  [_cancel_stream] never raises, not even when the cancel is itself
    cancelled or interrupted; it leaves the worker without a stream; it
    cancels the stream it holds exactly once and calls nothing when it holds
    none, so that a second call does nothing at all. *)
Theorem cancel_stream_never_raises
  (cancel : nat -> outcome unit) (ch : channel) :
  let '(r, ch') := _cancel_stream cancel ch in
  r = Ok tt /\
  _stream ch' = None /\
  cancel_calls (happened ch')
  = (cancel_calls (happened ch)
     ++ match _stream ch with Some s => [s] | None => [] end)%list /\
  (_stream ch = None -> ch' = ch) /\
  _cancel_stream cancel ch' = (Ok tt, ch').
Proof.
  unfold _cancel_stream. destruct ch as [[s |] tr]; cbn [_stream happened].
  - destruct (cancel s) as [[] | e]; rewrite !cancel_calls_app;
      cbn [cancel_calls flat_map app]; rewrite ?app_nil_r;
      repeat split; discriminate.
  - rewrite app_nil_r. now repeat split.
Qed.

Lemma cancel_stream_witness :
  _cancel_stream (fun _ => Raise CancelledError)
    {| _stream := None; happened := [ChannelLog DEBUG "idle"] |}
  = (Ok tt, {| _stream := None; happened := [ChannelLog DEBUG "idle"] |}).
Proof.
  pose proof (cancel_stream_never_raises
                (fun _ => Raise CancelledError)
                {| _stream := None; happened := [ChannelLog DEBUG "idle"] |}) as H.
  destruct (_cancel_stream (fun _ => Raise CancelledError)
              {| _stream := None; happened := [ChannelLog DEBUG "idle"] |})
    as [r ch'].
  destruct H as (-> & _ & _ & Hsame & _).
  now rewrite (Hsame eq_refl).
Defined.

(** X12.  However the stream is entered, used and left, [open_stream] ends
    with [self._stream] unset, so a [_cancel_stream] that follows finds
    nothing to cancel.  When the stream cannot be entered the body does not
    run and nothing is closed; otherwise the stream is closed after the body
    and an error of the closing replaces the outcome of the body.  A
    [_cancel_stream] run inside cancels exactly the stream that was
    opened. *)
Theorem open_stream_always_resets
  {A : Type} (aenter : outcome nat) (aexit : outcome unit)
  (body : nat -> channel -> outcome A * channel)
  (cancel : nat -> outcome unit) (ch : channel) :
  let '(r, ch') := open_stream aenter aexit body ch in
  _stream ch' = None /\
  _cancel_stream cancel ch' = (Ok tt, ch') /\
  match aenter with
  | Raise e =>
      r = Raise e /\
      happened ch' = (happened ch ++ [SubmitSnapshotOpen])%list
  | Ok s =>
      let inside := {| _stream := Some s;
                       happened := (happened ch ++ [SubmitSnapshotOpen])%list |} in
      happened ch'
      = (happened (snd (body s inside)) ++ [SubmitSnapshotClose])%list /\
      r = match aexit with
          | Ok _ => fst (body s inside)
          | Raise e => Raise e
          end /\
      cancel_calls
        (happened (snd (open_stream aenter aexit
                          (fun _ => _cancel_stream cancel) ch)))
      = (cancel_calls (happened ch) ++ [s])%list
  end.
Proof.
  unfold open_stream. destruct aenter as [s | e].
  - destruct (body s _) as [r1 ch1] eqn:Hb. cbn [_stream happened fst snd].
    repeat split.
    unfold _cancel_stream. cbn [_stream happened snd].
    destruct (cancel s) as [[] | e]; rewrite !cancel_calls_app;
      cbn [cancel_calls flat_map app]; now rewrite ?app_nil_r.
  - now repeat split.
Qed.

(** ** The HTTP wrapper *)

Lemma getitem_Ok d key v : getitem d key = Ok v -> In (key, v) d.
Proof.
  induction d as [| [k w] d IH]; simpl; [discriminate |].
  destruct (String.eqb_spec k key) as [-> | _].
  - intros [= ->]. now left.
  - intro H. right. now apply IH.
Qed.

Lemma getitem_Raise d key :
  (exists e, getitem d key = Raise e) <->
  (getitem d key = Raise KeyError /\ ~ In key (map fst d)).
Proof.
  induction d as [| [k w] d IH]; simpl.
  - split; [intros _; split; [reflexivity | tauto] | intros [H _]; eauto].
  - destruct (String.eqb_spec k key) as [-> | Hne].
    + split; [intros [e H]; discriminate | intros [H _]; discriminate].
    + rewrite IH. split; intros [H1 H2]; (split; [assumption |]); tauto.
Qed.

(** X13.  [_httpx_post_wrapper] hands a failed POST back instead of raising
    it: for a request that has the keys epochId, projectId and slotId the
    call returns them together with the decoded body (or the text of the
    answer when it is not JSON) and no exception, or with [None] and the
    [Exception] the POST raised; only an exception outside [Exception]
    leaves it.  When one of the three keys is missing the POST is made all
    the same and the call then raises [KeyError]. *)
Theorem httpx_post_wrapper_returns_failures
  (post : outcome httpx_response) (req_json : list (string * json)) :
  (forall epoch_id project_id slot_id,
      getitem req_json "epochId" = Ok epoch_id ->
      getitem req_json "projectId" = Ok project_id ->
      getitem req_json "slotId" = Ok slot_id ->
      match post with
      | Ok r =>
          _httpx_post_wrapper post req_json
          = Ok (match response_json r with
                | Ok j => PyJson j
                | Raise _ => PyStr (response_str r)
                end, None, epoch_id, project_id, slot_id)
      | Raise e =>
          _httpx_post_wrapper post req_json
          = if is_Exception e
            then Ok (PyJson JNull, Some e, epoch_id, project_id, slot_id)
            else Raise e
      end) /\
  (~ In "epochId" (map fst req_json) \/
   ~ In "projectId" (map fst req_json) \/
   ~ In "slotId" (map fst req_json) ->
   _httpx_post_wrapper post req_json
   = match post with
     | Raise e => if is_Exception e then Raise KeyError else Raise e
     | Ok _ => Raise KeyError
     end).
Proof.
  split.
  - intros ep pid sl H1 H2 H3. unfold _httpx_post_wrapper.
    rewrite H1, H2, H3.
    destruct post as [r | e]; [reflexivity | now destruct (is_Exception e)].
  - intro Hmiss. unfold _httpx_post_wrapper.
    assert (Hraise : forall key e, getitem req_json key = Raise e -> e = KeyError).
    { intros key e Hg.
      assert (Hx : exists e', getitem req_json key = Raise e') by eauto.
      apply getitem_Raise in Hx as [Hx _]. congruence. }
    assert (Hhas : forall key v, getitem req_json key = Ok v ->
                                 In key (map fst req_json)).
    { intros key v Hg. apply getitem_Ok in Hg.
      change key with (fst (key, v)). now apply in_map. }
    destruct (getitem req_json "epochId") as [v1 | e1] eqn:G1;
      [| apply Hraise in G1; subst e1];
      (destruct (getitem req_json "projectId") as [v2 | e2] eqn:G2;
       [| apply Hraise in G2; subst e2]);
      (destruct (getitem req_json "slotId") as [v3 | e3] eqn:G3;
       [| apply Hraise in G3; subst e3]);
      try (destruct post as [r | e]; [reflexivity | now destruct (is_Exception e)]).
    exfalso. apply Hhas in G1, G2, G3. tauto.
Qed.

Lemma httpx_post_wrapper_witness :
  _httpx_post_wrapper (Raise ConnectionResetError)
    [("epochId", JInt 5); ("projectId", JStr "project"); ("slotId", JInt 7)]
  = Ok (PyJson JNull, Some ConnectionResetError, JInt 5, JStr "project", JInt 7).
Proof.
  exact (proj1 (httpx_post_wrapper_returns_failures
                  (Raise ConnectionResetError)
                  [("epochId", JInt 5); ("projectId", JStr "project");
                   ("slotId", JInt 7)])
               (JInt 5) (JStr "project") (JInt 7) eq_refl eq_refl eq_refl).
Defined.

(** ** Initialisation *)

(** X14.  The two queries of [_init_protocol_meta] are independent as long
    as the first does not escape: an [Exception] from the block-time query
    is logged and leaves that field as it was, and the epoch-size query is
    still made and decides its own field.  A field is set exactly when its
    query returned a value, the block time as the value divided by 10^4.
    Nothing is raised for [Exception]s; an answer with no element raises
    [IndexError], and when that happens to the first query the second is
    never made. *)
Theorem init_protocol_meta_queries_are_independent
  (source_block_time_answer epoch_size_answer : outcome (list Z))
  (m : protocol_meta) :
  let '(r, m') :=
    _init_protocol_meta source_block_time_answer epoch_size_answer m in
  match escapes source_block_time_answer with
  | Some e =>
      r = Raise e /\
      calls_made (meta_trace m')
      = (calls_made (meta_trace m) ++ [CallSourceChainBlockTime])%list /\
      _source_chain_block_time m' = _source_chain_block_time m /\
      _epoch_size m' = _epoch_size m
  | None =>
      r = match escapes epoch_size_answer with
          | Some e => Raise e
          | None => Ok tt
          end /\
      calls_made (meta_trace m')
      = (calls_made (meta_trace m)
         ++ [CallSourceChainBlockTime; CallEpochSize])%list /\
      _source_chain_block_time m'
      = match fetched source_block_time_answer with
        | Some t => Some (inject_Z t / inject_Z 10000)%Q
        | None => _source_chain_block_time m
        end /\
      _epoch_size m'
      = match fetched epoch_size_answer with
        | Some n => Some n
        | None => _epoch_size m
        end
  end.
Proof.
  unfold _init_protocol_meta, fetch_source_chain_block_time, fetch_epoch_size,
    escapes, fetched, calls_made.
  destruct source_block_time_answer as [[| t ?] | e1];
    [| | destruct (is_Exception e1)];
    destruct epoch_size_answer as [[| n ?] | e2];
    try destruct (is_Exception e2);
    cbn [_source_chain_block_time _epoch_size meta_trace];
    rewrite ?filter_app; cbn [filter app]; rewrite ?app_nil_r, <- ?app_assoc;
    repeat split.
Qed.

(** X15.  On a worker that is not yet initialised [init] runs its four
    steps in order, each on the worker the step before it left.  When all
    four return, the worker is the one the last step left, marked
    initialised, and a further [init] runs no step and changes nothing.
    When one raises, the later steps are not run, that exception is raised,
    and the worker is as the raising step left it and stays uninitialised.
    On an initialised worker [init] returns without running a step. *)
Theorem init_runs_the_steps_once
  {R : Type}
  (init_httpx_client init_rpc_helper init_protocol_meta init_grpc
   : R -> outcome unit * R)
  (initialized : bool) (r : R) :
  let run := init init_httpx_client init_rpc_helper init_protocol_meta init_grpc in
  let '(res, (flag, r')) := run initialized r in
  (if initialized
   then res = Ok tt /\ flag = true /\ r' = r
   else
     match res with
     | Ok _ =>
         flag = true /\
         exists r1 r2 r3,
           init_httpx_client r = (Ok tt, r1) /\
           init_rpc_helper r1 = (Ok tt, r2) /\
           init_protocol_meta r2 = (Ok tt, r3) /\
           init_grpc r3 = (Ok tt, r')
     | Raise e =>
         flag = false /\
         (init_httpx_client r = (Raise e, r') \/
          exists r1, init_httpx_client r = (Ok tt, r1) /\
            (init_rpc_helper r1 = (Raise e, r') \/
             exists r2, init_rpc_helper r1 = (Ok tt, r2) /\
               (init_protocol_meta r2 = (Raise e, r') \/
                exists r3, init_protocol_meta r2 = (Ok tt, r3) /\
                           init_grpc r3 = (Raise e, r'))))
     end) /\
  match res with
  | Ok _ => flag = true /\ run flag r' = (Ok tt, (true, r'))
  | Raise _ => initialized = false /\ flag = false
  end.
Proof.
  cbv zeta. unfold init, and_then. destruct initialized; cbn [negb].
  - repeat split.
  - destruct (init_httpx_client r) as [[[] | e1] r1] eqn:H1.
    2: { repeat split. now left. }
    destruct (init_rpc_helper r1) as [[[] | e2] r2] eqn:H2.
    2: { repeat split. right. exists r1. split; [reflexivity |]. now left. }
    destruct (init_protocol_meta r2) as [[[] | e3] r3] eqn:H3.
    2: { repeat split. right. exists r1. split; [reflexivity |].
         right. exists r2. split; [exact H2 |]. now left. }
    destruct (init_grpc r3) as [[[] | e4] r4] eqn:H4.
    + split; [| split; reflexivity]. split; [reflexivity |].
      exists r1, r2, r3. repeat split; assumption.
    + repeat split. right. exists r1. split; [reflexivity |].
      right. exists r2. split; [exact H2 |].
      right. exists r3. split; [exact H3 |]. exact H4.
Qed.
